(** * friggdb/backend/gcs: the block persistence protocol of the GCS backend

    A shallow embedding of [gcs.go]: the key scheme, [Write], the listing
    loops of [Tenants] and [Blocks], the whole-object readers and the ranged
    read loop of [readRange], together with the properties of the block
    persistence protocol.

    Go strings are byte sequences and are modelled by [string]; [[]byte] is
    [list byte]; Go [int] values that count bytes are [Z].  The collaborators
    (the bucket, the local file system, the JSON codec, the UUID parser) are
    described by an environment record; the bucket contents and the log of
    collaborator calls form the state threaded through [Write].  The readers
    leave the bucket as it is and are functions of the state.  The packages
    [path], [strings] and [uuid] are rendered from their documented
    behaviour. *)

From Stdlib Require Import ZArith Strings.Byte Ascii String.
From stdpp Require Import base gmap strings list pretty.


#[global] Instance byte_eq_dec : EqDecision byte := Byte.byte_eq_dec.

(** ** Package [strings] *)

(** [strings.HasPrefix(s, prefix)]: [len(s) >= len(prefix) && s[:len(prefix)] == prefix]. *)
Definition strings_HasPrefix (s prefix : string) : bool :=
  bool_decide (String.length prefix ≤ String.length s)%nat
  && bool_decide (substring 0 (String.length prefix) s = prefix).

(** [strings.HasSuffix(s, suffix)]. *)
Definition strings_HasSuffix (s suffix : string) : bool :=
  bool_decide (String.length suffix ≤ String.length s)%nat
  && bool_decide (substring (String.length s - String.length suffix)
                            (String.length suffix) s = suffix).

(** [strings.TrimPrefix]: [s] without the leading [prefix], or [s] itself. *)
Definition strings_TrimPrefix (s prefix : string) : string :=
  if strings_HasPrefix s prefix
  then substring (String.length prefix) (String.length s - String.length prefix) s
  else s.

(** [strings.TrimSuffix]: [s] without the trailing [suffix], or [s] itself. *)
Definition strings_TrimSuffix (s suffix : string) : string :=
  if strings_HasSuffix s suffix
  then substring 0 (String.length s - String.length suffix) s
  else s.

(** [strings.Join(elems, sep)]. *)
Fixpoint strings_Join (elems : list string) (sep : string) : string :=
  match elems with
  | [] => ""
  | [e] => e
  | e :: rest => e +:+ sep +:+ strings_Join rest sep
  end.

(** [strings.Contains(s, substr)], as a proposition. *)
Definition Contains (s substr : string) : Prop :=
  ∃ before after, s = before +:+ substr +:+ after.

(** ** Package [path] *)

Definition slash : ascii := "/"%char.

(** The elements of a path: the maximal runs between slashes. *)
Fixpoint path_elements (s : string) : list string :=
  match s with
  | EmptyString => [EmptyString]
  | String c s' =>
      if decide (c = slash) then EmptyString :: path_elements s'
      else match path_elements s' with
           | e :: es => String c e :: es
           | [] => [String c EmptyString]
           end
  end.

(** Whether the path delimiter occurs in [s]. *)
Fixpoint has_slash (s : string) : bool :=
  match s with
  | EmptyString => false
  | String c s' => bool_decide (c = slash) || has_slash s'
  end.

(** A plain path element: not empty, without slash, neither [.] nor [..]. *)
Definition is_name (e : string) : bool :=
  negb (has_slash e) && bool_decide (e ≠ "") && bool_decide (e ≠ ".")
  && bool_decide (e ≠ "..").

(** The output buffer of [path.Clean], kept as the stack of elements written
    so far (last written first).  [dotdot] counts the leading elements that a
    [..] may not remove: in the Go code it is the index where backtracking
    must stop, after a leading [../../..] prefix. *)
Record lazybuf := Lazybuf { out : list string; dotdot : nat }.

(** One turn of the loop of [path.Clean] on the next path element. *)
Definition clean_step (rooted : bool) (b : lazybuf) (e : string) : lazybuf :=
  if decide (e = "") then b                    (* empty path element *)
  else if decide (e = ".") then b              (* . element *)
  else if decide (e = "..") then               (* .. element: remove to last / *)
    if decide (dotdot b < length (out b))%nat
    then Lazybuf (tail (out b)) (dotdot b)     (* can backtrack *)
    else if rooted then b
    else Lazybuf (".." :: out b) (S (length (out b)))
  else Lazybuf (e :: out b) (dotdot b).        (* real path element *)

Definition is_rooted (s : string) : bool :=
  match s with
  | String c _ => bool_decide (c = slash)
  | EmptyString => false
  end.

(** [path.Clean]: the shortest path name equivalent to [s]. *)
Definition path_Clean (s : string) : string :=
  if decide (s = "") then "."
  else
    let rooted := is_rooted s in
    let b := fold_left (clean_step rooted) (path_elements s) (Lazybuf [] 0) in
    let body := strings_Join (rev (out b)) "/" in
    if rooted then "/" +:+ body
    else if decide (body = "") then "." else body.

(** [path.Join]: leading empty elements are ignored, the rest is joined with
    slashes and cleaned; all elements empty gives the empty string. *)
Fixpoint path_Join (elem : list string) : string :=
  match elem with
  | [] => ""
  | e :: rest =>
      if decide (e = "") then path_Join rest
      else path_Clean (strings_Join elem "/")
  end.

(** ** Package [uuid] *)

(** [uuid.UUID] is [[16]byte]. *)
Record UUID := mkUUID { uuid_bytes : list byte }.

Definition hextable : string := "0123456789abcdef".

Definition hex_char (n : N) : ascii :=
  default "0"%char (String.get (N.to_nat n) hextable).

(** [hex.Encode]: two lower-case hexadecimal digits per byte. *)
Fixpoint hex_Encode (src : list byte) : string :=
  match src with
  | [] => ""
  | v :: rest =>
      String (hex_char (N.shiftr (Byte.to_N v) 4))
        (String (hex_char (N.land (Byte.to_N v) 15)) (hex_Encode rest))
  end.

(** [UUID.String]: the form xxxxxxxx-xxxx-xxxx-xxxx-xxxxxxxxxxxx. *)
Definition UUID_String (u : UUID) : string :=
  let b := uuid_bytes u in
  hex_Encode (take 4 b) +:+ "-" +:+
  hex_Encode (take 2 (drop 4 b)) +:+ "-" +:+
  hex_Encode (take 2 (drop 6 b)) +:+ "-" +:+
  hex_Encode (take 2 (drop 8 b)) +:+ "-" +:+
  hex_Encode (drop 10 b).

(** ** The key scheme *)

Definition rootPath (blockID : UUID) (tenantID : string) : string :=
  path_Join [tenantID; UUID_String blockID].

Definition metaFileName (blockID : UUID) (tenantID : string) : string :=
  path_Join [rootPath blockID tenantID; "meta.json"].

Definition bloomFileName (blockID : UUID) (tenantID : string) : string :=
  path_Join [rootPath blockID tenantID; "bloom"].

Definition indexFileName (blockID : UUID) (tenantID : string) : string :=
  path_Join [rootPath blockID tenantID; "index"].

Definition objectFileName (blockID : UUID) (tenantID : string) : string :=
  path_Join [rootPath blockID tenantID; "data"].

(** ** Errors *)

Inductive errno := ENOENT | EACCES | EIO.

(** Error values that belong to the collaborators.  [io.EOF] and
    [iterator.Done] are the sentinels the code compares against. *)
Inductive ext_error :=
| io_EOF
| iterator_Done
| storage_ErrObjectNotExist
| storage_invalid_offset (offset : Z)
| os_PathError (op path : string) (no : errno)
| pkg_error (msg : string).

(** Error values seen by the callers of this package: a collaborator's error
    passed on unchanged, or one of the two errors built with [fmt.Errorf]. *)
Inductive error :=
| Ext (e : ext_error)
| ErrObjectFileNotFound (objectFilePath : string)
| ErrFailedParse (idString : string) (cause : ext_error).

#[global] Instance errno_eq_dec : EqDecision errno.
Proof. solve_decision. Defined.
#[global] Instance ext_error_eq_dec : EqDecision ext_error.
Proof. solve_decision. Defined.
#[global] Instance error_eq_dec : EqDecision error.
Proof. solve_decision. Defined.

Definition errno_Error (no : errno) : string :=
  match no with
  | ENOENT => "no such file or directory"
  | EACCES => "permission denied"
  | EIO => "input/output error"
  end.

Definition ext_Error (e : ext_error) : string :=
  match e with
  | io_EOF => "EOF"
  | iterator_Done => "no more items in iterator"
  | storage_ErrObjectNotExist => "storage: object doesn't exist"
  | storage_invalid_offset offset =>
      "storage: invalid offset " +:+ pretty offset +:+ " < 0"
  | os_PathError op path no => op +:+ " " +:+ path +:+ ": " +:+ errno_Error no
  | pkg_error msg => msg
  end.

(** The [Error()] method: the message of an error. *)
Definition Error (e : error) : string :=
  match e with
  | Ext e => ext_Error e
  | ErrObjectFileNotFound objectFilePath =>
      "object file not found " +:+ objectFilePath
  | ErrFailedParse idString cause =>
      "failed parse on blockID " +:+ idString +:+ ": " +:+ ext_Error cause
  end.

(** [os.IsNotExist(err)]. *)
Definition os_IsNotExist (err : option ext_error) : bool :=
  match err with
  | Some (os_PathError _ _ ENOENT) => true
  | _ => false
  end.

(** ** The collaborators *)

(** An open local file: the bytes it yields, and the error (if any) that ends
    the stream instead of end-of-file. *)
Record File := mkFile { f_name : string; f_data : list byte; f_err : option ext_error }.

(** [storage.Query] and the part of [storage.ObjectAttrs] the listing uses. *)
Record Query := mkQuery { q_Prefix : string; q_Delimiter : string; q_Versions : bool }.
Record ObjectAttrs := mkAttrs { Prefix : string; Name : string }.

(** A [storage.ObjectIterator]: the entries still to come, and the error that
    [Next] returns once they are used up.  That error stays: [Next] returns
    it at every later call.  It is [iterator.Done] at the end of a listing,
    and the error of the fetch when a page of the listing could not be
    read. *)
Record ObjectIterator := mkIterator { it_entries : list ObjectAttrs; it_err : ext_error }.

(** [iter.Next()]. *)
Definition iterator_Next (iter : ObjectIterator)
    : (ObjectAttrs + ext_error) * ObjectIterator :=
  match it_entries iter with
  | attrs :: rest => (inl attrs, mkIterator rest (it_err iter))
  | [] => (inr (it_err iter), iter)
  end.

(** The answer of the bucket to a ranged read that starts at or behind the
    end of the object: HTTP status 416. *)
Definition googleapi_Error416 : ext_error :=
  pkg_error "googleapi: got HTTP response code 416 with body: ".

(** [googleapi.MinUploadChunkSize]. *)
Definition googleapi_MinUploadChunkSize : N := 262144.

(** [googleapi.ChunkSize(size)]: the size of the chunk buffer of an upload,
    which is [size] rounded up to a multiple of 256K. *)
Definition googleapi_ChunkSize (size : N) : N :=
  if decide (size `mod` googleapi_MinUploadChunkSize = 0)%N then size
  else (size + (googleapi_MinUploadChunkSize
                - size `mod` googleapi_MinUploadChunkSize))%N.

(** What one [Read] on a ranged stream does next: hand over at most [n] bytes,
    or fail. *)
Inductive read_step := Deliver (n : nat) | Fault (e : ext_error).

(** The behaviour of everything outside this package.  Faults of the bucket
    are given per object name: [upload_fault] is the error with which the
    bucket rejects the upload of the object, [reader_fault] the error of
    opening a reader on it, [stream_fault] the error that ends
    [ioutil.ReadAll] after so many bytes; [range_plan] and [range_eager] say
    how its ranged stream delivers.  [ChunkBufferSize] is the field of the
    configuration that [writer] copies into [Writer.ChunkSize] (the writer
    refuses a negative value; the model covers the values it accepts), and
    [unchunked_window] is the number of bytes that the transport takes of
    an upload made in a single request (chunk size zero) before the failure
    of the request comes back to the writer.  A listing is the iterator
    that [bucket.Objects] returns.  The record type [backend.BlockMeta] is
    declared outside this package: the development is parametric in it and
    in its JSON codec. *)
Record Env (backend_BlockMeta : Type) := mkEnv {
  os_Stat : string → option ext_error;
  os_Open : string → File + ext_error;
  ChunkBufferSize : N;
  unchunked_window : string → N;
  upload_fault : string → option ext_error;
  reader_fault : string → option ext_error;
  stream_fault : string → option (nat * ext_error);
  range_plan : string → list read_step;
  range_eager : string → bool;
  listing : Query → ObjectIterator;
  json_Marshal : backend_BlockMeta → list byte + ext_error;
  json_Unmarshal : list byte → backend_BlockMeta + ext_error;
  uuid_Parse : string → UUID + ext_error;
}.
Arguments os_Stat {_} _ _.
Arguments os_Open {_} _ _.
Arguments ChunkBufferSize {_} _.
Arguments unchunked_window {_} _ _.
Arguments upload_fault {_} _ _.
Arguments reader_fault {_} _ _.
Arguments stream_fault {_} _ _.
Arguments range_plan {_} _ _.
Arguments range_eager {_} _ _.
Arguments listing {_} _ _.
Arguments json_Marshal {_} _ _.
Arguments json_Unmarshal {_} _ _.
Arguments uuid_Parse {_} _ _.

(** ** State: the bucket and the log of collaborator calls *)

Inductive call :=
| CallWrite (name : string) (b : list byte)   (* Writer.Write on the writer of [name] *)
| CallCopy (name : string) (src : string)     (* io.Copy from file [src] into the writer of [name] *)
| CallClose (name : string) (created : option (list byte))
    (* Writer.Close on the writer of [name]; [created]: the content of the
       object that now exists, if the upload went through *)
| CallStat (path : string)
| CallOpen (path : string)
| CallFileClose (path : string).

#[global] Instance call_eq_dec : EqDecision call.
Proof. solve_decision. Defined.

Record State := mkState { objects : gmap string (list byte); trace : list call }.

(** The bucket after the calls of a log: each successful close creates (or
    replaces) its object. *)
Definition replay (calls : list call) (objs : gmap string (list byte))
    : gmap string (list byte) :=
  fold_left (λ m c, match c with
                    | CallClose name (Some b) => <[name := b]> m
                    | _ => m
                    end) calls objs.

(** The objects a log creates, in the order in which they come to exist. *)
Definition finalized (calls : list call) : list string :=
  omap (λ c, match c with CallClose name (Some _) => Some name | _ => None end) calls.

(** The objects a log hands bytes to, in the order of the hand-over. *)
Definition uploads (calls : list call) : list string :=
  omap (λ c, match c with
             | CallWrite name _ | CallCopy name _ => Some name
             | _ => None
             end) calls.

(** The steps of [Write]. *)
Inductive step :=
| StepBloom | StepIndex | StepSourceCheck | StepOpen | StepCopy | StepMarshal | StepMeta.

#[global] Instance step_eq_dec : EqDecision step.
Proof. solve_decision. Defined.

Definition all_steps : list step :=
  [StepBloom; StepIndex; StepSourceCheck; StepOpen; StepCopy; StepMarshal; StepMeta].

Definition step_index (s : step) : nat :=
  match s with
  | StepBloom => 0 | StepIndex => 1 | StepSourceCheck => 2 | StepOpen => 3
  | StepCopy => 4 | StepMarshal => 5 | StepMeta => 6
  end.

Definition steps_upto (s : step) : list step := take (S (step_index s)) all_steps.

(** The state monad of the package's operations. *)
Definition M (A : Type) : Type := State → A * State.

#[global] Instance M_ret : MRet M := λ A a st, (a, st).
#[global] Instance M_bind : MBind M := λ A B f m st, let '(a, st') := m st in f a st'.

Definition log (c : call) : M unit :=
  λ st, (tt, mkState (objects st) (trace st ++ [c])).

(** A [storage.Writer]: its [ChunkSize], the bytes handed to it for the
    object, and the error of the upload once the writer has learnt of it.
    In the words of the storage package, the object will not be available
    (and any previous object will remain) until [Close] has been called. *)
Record Writer := mkWriter {
  w_name : string;
  w_ChunkSize : N;
  w_buf : list byte;
  w_err : option ext_error;
}.

(** The interface [io.Reader].  [Read r n] is a [Read(p)] with [len(p) = n]:
    it gives the returned count, the bytes the call stored at the start of
    [p], the returned error and the reader afterwards. *)
Class io_Reader (R : Type) := Read : R → nat → (Z * list byte * option ext_error) * R.

(** The result of running Go code that may panic. *)
Inductive outcome := Returned (err : option error) | Panicked.

(** Storing [d] at the start of the slice [p]; a slice never grows. *)
Definition store (p d : list byte) : list byte :=
  take (length p) (d ++ drop (length d) p).

(** The loop of [readRange], for [fuel] iterations.  The result is the
    outcome ([None]: still running), the caller's buffer, the reader and the
    value of [totalBytes] at that point.  [buffer[totalBytes:]] panics when
    [totalBytes] is outside [0..len(buffer)]; [Read] has filled the slice
    before its error is looked at.  (A sum [totalBytes + byteCount] that left
    the range of [int] would wrap to a negative number and panic at the next
    slicing as well, so the sum is left unbounded.) *)
Fixpoint readRange_loop {R} `{io_Reader R} (fuel : nat) (r : R)
    (buffer : list byte) (totalBytes : Z) : option outcome * list byte * R * Z :=
  match fuel with
  | O => (None, buffer, r, totalBytes)
  | S fuel' =>
      if decide (0 ≤ totalBytes ≤ Z.of_nat (length buffer))%Z then
        let p := drop (Z.to_nat totalBytes) buffer in
        let '((byteCount, d, err), r') := Read r (length p) in
        let buffer' := take (Z.to_nat totalBytes) buffer ++ store p d in
        match err with
        | Some e =>
            if decide (e = io_EOF)
            then (Some (Returned None), buffer', r', totalBytes)
            else (Some (Returned (Some (Ext e))), buffer', r', totalBytes)
        | None =>
            if decide (byteCount = 0)%Z
            then (Some (Returned None), buffer', r', totalBytes)
            else readRange_loop fuel' r' buffer' (totalBytes + byteCount)%Z
        end
      else (Some Panicked, buffer, r, totalBytes)
  end.

(** The reader returned by [NewRangeReader]: the bytes of the range still to
    come and the way the next reads deliver them. *)
Record RangeReader := mkRangeReader {
  rr_remain : list byte;
  rr_plan : list read_step;
  rr_eager : bool;   (* io.EOF comes together with the last bytes *)
}.

(** An [io.Reader] may report the end of the stream with the last bytes or
    with the read after them. *)
Definition end_of_stream (eager : bool) (remain : list byte) : option ext_error :=
  if eager && bool_decide (remain = []) then Some io_EOF else None.

#[global] Instance RangeReader_Read : io_Reader RangeReader := λ r n,
  match rr_plan r with
  | Fault e :: plan =>
      ((0%Z, [], Some e), mkRangeReader (rr_remain r) plan (rr_eager r))
  | plan =>
      let k := match plan with Deliver k :: _ => k `min` n | _ => n end in
      match rr_remain r with
      | [] => ((0%Z, [], Some io_EOF), mkRangeReader [] (tail plan) (rr_eager r))
      | remain =>
          ((Z.of_nat (length (take k remain)), take k remain,
            end_of_stream (rr_eager r) (drop k remain)),
           mkRangeReader (drop k remain) (tail plan) (rr_eager r))
      end
  end.

(** A read that makes progress: it hands over at least one byte. *)
Definition steady (s : read_step) : bool :=
  match s with
  | Deliver (S _) => true
  | _ => false
  end.

(** The bytes a run of reads offers. *)
Definition plan_bytes (plan : list read_step) : nat :=
  sum_list (map (λ s, match s with Deliver n => n | Fault _ => 0%nat end) plan).

(** The contract of [io.Reader] on the count a [Read] returns:
    [0 <= n <= len(p)]. *)
Definition reader_contract (R : Type) `{io_Reader R} : Prop :=
  ∀ (r : R) (n : nat), (0 ≤ (Read r n).1.1.1 ≤ Z.of_nat n)%Z.

(** [int64(start)] for a [uint64]. *)
Definition to_int64 (start : Z) : Z :=
  ((start + 2 ^ 63) `mod` 2 ^ 64 - 2 ^ 63)%Z.

Section Backend.
Context {backend_BlockMeta : Type}.
Variable env : Env backend_BlockMeta.

(** *** Writing *)

(** [rw.writer]: [bucket.Object(name).NewWriter(ctx)] with
    [w.ChunkSize = rw.cfg.ChunkBufferSize]. *)
Definition writer (name : string) : Writer :=
  mkWriter name (ChunkBufferSize env) [] None.

(** The bytes a writer takes before it learns what became of its upload.
    The writer fills a chunk buffer and sends nothing before it was handed
    more than the buffer holds; what fits into the buffer goes out in a
    single request when the writer is closed.  With chunking disabled the
    whole upload is a single request, of which the transport takes
    [unchunked_window] bytes before its failure comes back. *)
Definition accepted (w : Writer) : N :=
  if decide (w_ChunkSize w = 0)%N then unchunked_window env (w_name w)
  else googleapi_ChunkSize (w_ChunkSize w).

(** The error that handing [b] to the writer returns: the rejection of the
    upload, once the bytes handed over no longer fit. *)
Definition reported (w : Writer) (b : list byte) : option ext_error :=
  if decide (accepted w < N.of_nat (length (w_buf w ++ b)))%N
  then upload_fault env (w_name w) else None.

(** [w.Write(b)]. *)
Definition Writer_Write (w : Writer) (b : list byte) : M (option ext_error * Writer) :=
  _ ← log (CallWrite (w_name w) b);
  match w_err w with
  | Some e => mret (Some e, w)
  | None =>
      match reported w b with
      | Some e =>
          mret (Some e, mkWriter (w_name w) (w_ChunkSize w) (w_buf w) (Some e))
      | None =>
          mret (None, mkWriter (w_name w) (w_ChunkSize w) (w_buf w ++ b) None)
      end
  end.

(** [w.Close()]: completes the upload, which creates the object, or returns
    the error that broke it: the one an earlier [Write] returned, or the
    rejection of an upload that no [Write] had to report.  Every caller in
    this package discards the result. *)
Definition Writer_Close (w : Writer) : M (option ext_error) :=
  match w_err w with
  | Some e => _ ← log (CallClose (w_name w) None); mret (Some e)
  | None =>
      match upload_fault env (w_name w) with
      | Some e => _ ← log (CallClose (w_name w) None); mret (Some e)
      | None =>
          λ st, (None, mkState (<[w_name w := w_buf w]> (objects st))
                               (trace st ++ [CallClose (w_name w) (Some (w_buf w))]))
      end
  end.

(** [io.Copy(w, src)]: the bytes the file yields go to the writer; the
    first error met, on either side, is returned. *)
Definition io_Copy (w : Writer) (src : File) : M (option ext_error * Writer) :=
  _ ← log (CallCopy (w_name w) (f_name src));
  match w_err w with
  | Some e => mret (Some e, w)
  | None =>
      match reported w (f_data src) with
      | Some e =>
          mret (Some e, mkWriter (w_name w) (w_ChunkSize w) (w_buf w) (Some e))
      | None =>
          mret (f_err src,
                mkWriter (w_name w) (w_ChunkSize w) (w_buf w ++ f_data src) None)
      end
  end.

Definition File_Close (f : File) : M unit := log (CallFileClose (f_name f)).

Definition fileExists (filename : string) : M bool :=
  _ ← log (CallStat filename);
  mret (negb (os_IsNotExist (os_Stat env filename))).

Definition writeAll (name : string) (b : list byte) : M (option error) :=
  let w := writer name in
  '(err, w) ← Writer_Write w b;
  _ ← Writer_Close w;                               (* defer w.Close() *)
  mret (Ext <$> err).

(** [Write].  The two deferred calls run when the function returns, on
    every path that has passed their [defer] statement, last deferred
    first. *)
Definition Write (blockID : UUID) (tenantID : string) (meta : backend_BlockMeta)
    (bBloom bIndex : list byte) (objectFilePath : string) : M (option error) :=
  err ← writeAll (bloomFileName blockID tenantID) bBloom;
  match err with Some _ => mret err | None =>
  err ← writeAll (indexFileName blockID tenantID) bIndex;
  match err with Some _ => mret err | None =>
  (* copy traces file. *)
  found ← fileExists objectFilePath;
  if negb found then mret (Some (ErrObjectFileNotFound objectFilePath)) else
  _ ← log (CallOpen objectFilePath);
  match os_Open env objectFilePath with
  | inr e => mret (Some (Ext e))
  | inl src =>
      let w := writer (objectFileName blockID tenantID) in
      '(err, w) ← io_Copy w src;
      ret ← match err with
            | Some e => mret (Some (Ext e))
            | None =>
                match json_Marshal env meta with
                | inr e => mret (Some (Ext e))
                | inl bMeta =>
                    (* write meta last.  this will prevent blocklist from
                       returning a partial block *)
                    writeAll (metaFileName blockID tenantID) bMeta
                end
            end;
      _ ← Writer_Close w;                           (* defer w.Close() *)
      _ ← File_Close src;                           (* defer src.Close() *)
      mret ret
  end end end.

(** *** Listing *)

(** The [for] loop of [Tenants], for [fuel] iterations; [None]: still
    running. *)
Fixpoint Tenants_loop (fuel : nat) (iter : ObjectIterator)
    (tenants : list string) (warning : option error)
    : option (list string * option error) :=
  match fuel with
  | O => None
  | S fuel' =>
      let '(res, iter') := iterator_Next iter in
      match res with
      | inr err =>
          if decide (err = iterator_Done) then Some (tenants, warning)
          else Tenants_loop fuel' iter' tenants (Some (Ext err))
      | inl attrs =>
          Tenants_loop fuel' iter'
            (tenants ++ [strings_TrimSuffix (Prefix attrs) "/"]) warning
      end
  end.

Definition Tenants (fuel : nat) : option (list string * option error) :=
  let iter := listing env (mkQuery "" "/" false) in
  Tenants_loop fuel iter [] None.

(** The [for] loop of [Blocks]. *)
Fixpoint Blocks_loop (fuel : nat) (tenantID : string) (iter : ObjectIterator)
    (blocks : list UUID) (warning : option error)
    : option (list UUID * option error) :=
  match fuel with
  | O => None
  | S fuel' =>
      let '(res, iter') := iterator_Next iter in
      match res with
      | inr err =>
          if decide (err = iterator_Done) then Some (blocks, warning)
          else Blocks_loop fuel' tenantID iter' blocks (Some (Ext err))
      | inl attrs =>
          let idString :=
            strings_TrimSuffix
              (strings_TrimPrefix (Prefix attrs) (tenantID +:+ "/")) "/" in
          match uuid_Parse env idString with
          | inr err =>
              Blocks_loop fuel' tenantID iter' blocks
                (Some (ErrFailedParse idString err))
          | inl blockID =>
              Blocks_loop fuel' tenantID iter' (blocks ++ [blockID]) warning
          end
      end
  end.

Definition Blocks (fuel : nat) (tenantID : string)
    : option (list UUID * option error) :=
  let iter := listing env (mkQuery (tenantID +:+ "/") "/" false) in
  Blocks_loop fuel tenantID iter [] None.

(** *** Reading *)

(** [bucket.Object(name).NewReader(ctx)]: the bytes the reader will stream. *)
Definition NewReader (st : State) (name : string) : list byte + ext_error :=
  match reader_fault env name with
  | Some e => inr e
  | None =>
      match objects st !! name with
      | None => inr storage_ErrObjectNotExist
      | Some content => inl content
      end
  end.

(** [ioutil.ReadAll(r)] on the reader of [name]. *)
Definition ioutil_ReadAll (name : string) (r : list byte) : list byte * option ext_error :=
  match stream_fault env name with
  | Some (n, e) => (take n r, Some e)
  | None => (r, None)
  end.

Definition readAll (st : State) (name : string) : list byte * option error :=
  match NewReader st name with
  | inr err => ([], Some (Ext err))
  | inl r =>
      let '(b, err) := ioutil_ReadAll name r in (b, Ext <$> err)
  end.

Definition BlockMeta (st : State) (blockID : UUID) (tenantID : string)
    : option backend_BlockMeta * option error :=
  let name := metaFileName blockID tenantID in
  let '(bytes, err) := readAll st name in
  match err with
  | Some _ => (None, err)
  | None =>
      match json_Unmarshal env bytes with
      | inr err => (None, Some (Ext err))
      | inl out => (Some out, None)
      end
  end.

Definition Bloom (st : State) (blockID : UUID) (tenantID : string)
    : list byte * option error :=
  let name := bloomFileName blockID tenantID in
  readAll st name.

Definition Index (st : State) (blockID : UUID) (tenantID : string)
    : list byte * option error :=
  let name := indexFileName blockID tenantID in
  readAll st name.

(** [bucket.Object(name).NewRangeReader(ctx, offset, length)], for the
    [length >= 0] that [readRange] passes.  The library refuses a negative
    offset before it asks the bucket.  For a length of zero it asks for the
    object's headers only, whatever the offset, and the reader has no body;
    otherwise it asks for the range, which the bucket refuses when the
    offset is not inside the object, and the reader streams at most
    [length] bytes from [offset] on. *)
Definition NewRangeReader (st : State) (name : string) (offset length : Z)
    : RangeReader + ext_error :=
  if decide (offset < 0)%Z then inr (storage_invalid_offset offset)
  else
    match reader_fault env name with
    | Some e => inr e
    | None =>
        match objects st !! name with
        | None => inr storage_ErrObjectNotExist
        | Some content =>
            if decide (length = 0)%Z then inl (mkRangeReader [] [] false)
            else if decide (offset < Z.of_nat (List.length content))%Z
            then inl (mkRangeReader
                        (take (Z.to_nat length) (drop (Z.to_nat offset) content))
                        (range_plan env name) (range_eager env name))
            else inr googleapi_Error416
        end
    end.

(** [readRange]: the outcome and the caller's buffer afterwards. *)
Definition readRange (fuel : nat) (st : State) (name : string) (offset : Z)
    (buffer : list byte) : option outcome * list byte :=
  match NewRangeReader st name offset (Z.of_nat (List.length buffer)) with
  | inr err => (Some (Returned (Some (Ext err))), buffer)
  | inl r =>
      let '(res, buffer', _, _) := readRange_loop fuel r buffer 0 in (res, buffer')
  end.

Definition Object (fuel : nat) (st : State) (blockID : UUID) (tenantID : string)
    (start : Z) (buffer : list byte) : option outcome * list byte :=
  let name := objectFileName blockID tenantID in
  readRange fuel st name (to_int64 start) buffer.

(** *** The steps of [Write], from the collaborators' point of view *)

Section Steps.
Variables (blockID : UUID) (tenantID : string) (meta : backend_BlockMeta).
Variables (bBloom bIndex : list byte) (objectFilePath : string).

(** What closing the writer of [name] does after [b] was handed to it: the
    object is created unless the bucket rejects the upload. *)
Definition closes (name : string) (b : list byte) : call :=
  CallClose name (match upload_fault env name with
                  | Some _ => None
                  | None => Some b
                  end).

(** The error a step ends with, once it is reached. *)
Definition step_error (s : step) : option error :=
  match s with
  | StepBloom => Ext <$> reported (writer (bloomFileName blockID tenantID)) bBloom
  | StepIndex => Ext <$> reported (writer (indexFileName blockID tenantID)) bIndex
  | StepSourceCheck =>
      if os_IsNotExist (os_Stat env objectFilePath)
      then Some (ErrObjectFileNotFound objectFilePath) else None
  | StepOpen =>
      match os_Open env objectFilePath with
      | inr e => Some (Ext e)
      | inl _ => None
      end
  | StepCopy =>
      match os_Open env objectFilePath with
      | inl src =>
          match reported (writer (objectFileName blockID tenantID)) (f_data src) with
          | Some e => Some (Ext e)
          | None => Ext <$> f_err src
          end
      | inr _ => None
      end
  | StepMarshal =>
      match json_Marshal env meta with
      | inr e => Some (Ext e)
      | inl _ => None
      end
  | StepMeta =>
      match json_Marshal env meta with
      | inl bMeta => Ext <$> reported (writer (metaFileName blockID tenantID)) bMeta
      | inr _ => None
      end
  end.

(** The collaborator calls a step makes itself. *)
Definition step_calls (s : step) : list call :=
  match s with
  | StepBloom =>
      [CallWrite (bloomFileName blockID tenantID) bBloom;
       closes (bloomFileName blockID tenantID) bBloom]
  | StepIndex =>
      [CallWrite (indexFileName blockID tenantID) bIndex;
       closes (indexFileName blockID tenantID) bIndex]
  | StepSourceCheck => [CallStat objectFilePath]
  | StepOpen => [CallOpen objectFilePath]
  | StepCopy =>
      match os_Open env objectFilePath with
      | inl src => [CallCopy (objectFileName blockID tenantID) (f_name src)]
      | inr _ => []
      end
  | StepMarshal => []
  | StepMeta =>
      match json_Marshal env meta with
      | inl bMeta =>
          [CallWrite (metaFileName blockID tenantID) bMeta;
           closes (metaFileName blockID tenantID) bMeta]
      | inr _ => []
      end
  end.

(** The call a step defers to the return of [Write]. *)
Definition step_deferred (s : step) : list call :=
  match s, os_Open env objectFilePath with
  | StepOpen, inl src => [CallFileClose (f_name src)]
  | StepCopy, inl src =>
      [closes (objectFileName blockID tenantID) (f_data src)]
  | _, _ => []
  end.

(** All calls of a run of [Write] that ends in step [s]: the calls of the
    steps up to [s], then the deferred calls, last deferred first. *)
Definition performed (s : step) : list call :=
  flat_map step_calls (steps_upto s)
  ++ flat_map step_deferred (rev (steps_upto s)).

(** The step in which [Write] returns: the first one that ends with an
    error, or the last one. *)
Definition stop_step : step :=
  default StepMeta (find (λ s, bool_decide (is_Some (step_error s))) all_steps).

(** The object a step is there to create. *)
Definition step_component (s : step) : option (string * list byte) :=
  match s with
  | StepBloom => Some (bloomFileName blockID tenantID, bBloom)
  | StepIndex => Some (indexFileName blockID tenantID, bIndex)
  | StepCopy =>
      match os_Open env objectFilePath with
      | inl src => Some (objectFileName blockID tenantID, f_data src)
      | inr _ => None
      end
  | StepMeta =>
      match json_Marshal env meta with
      | inl bMeta => Some (metaFileName blockID tenantID, bMeta)
      | inr _ => None
      end
  | _ => None
  end.
End Steps.

End Backend.

(** *** What a listing holds *)

(** The candidate block id of a listed entry. *)
Definition idString_of (tenantID : string) (attrs : ObjectAttrs) : string :=
  strings_TrimSuffix (strings_TrimPrefix (Prefix attrs) (tenantID +:+ "/")) "/".

(** What [Blocks] makes of an entry it has read: a block id, or the failure
    it records. *)
Definition Blocks_entry {backend_BlockMeta : Type} (env : Env backend_BlockMeta) (tenantID : string)
    (attrs : ObjectAttrs) : UUID + error :=
  match uuid_Parse env (idString_of tenantID attrs) with
  | inl blockID => inl blockID
  | inr err => inr (ErrFailedParse (idString_of tenantID attrs) err)
  end.

(** Whether the candidate block id of a listed entry parses. *)
Definition parses {backend_BlockMeta : Type} (env : Env backend_BlockMeta) (tenantID : string)
    (attrs : ObjectAttrs) : bool :=
  match uuid_Parse env (idString_of tenantID attrs) with
  | inl _ => true
  | inr _ => false
  end.

(** The block ids of the entries that parse, in the order of the listing. *)
Definition parsed_ids {backend_BlockMeta : Type} (env : Env backend_BlockMeta) (tenantID : string)
    (entries : list ObjectAttrs) : list UUID :=
  omap (λ attrs, match uuid_Parse env (idString_of tenantID attrs) with
                 | inl blockID => Some blockID
                 | inr _ => None
                 end) entries.

Definition lefts {A B : Type} (l : list (A + B)) : list A :=
  omap (λ x, match x with inl a => Some a | inr _ => None end) l.

Definition rights {A B : Type} (l : list (A + B)) : list B :=
  omap (λ x, match x with inl _ => None | inr b => Some b end) l.

(** The bytes of an object in the range of [n] bytes from [start] on. *)
Definition range_data (content : list byte) (start : Z) (n : nat) : list byte :=
  take n (drop (Z.to_nat start) content).

(** The reads of the object [name] meet no fault of the bucket, and every read
    of its ranged stream makes progress. *)
Definition reads_healthy {backend_BlockMeta : Type} (env : Env backend_BlockMeta) (name : string) : Prop :=
  reader_fault env name = None ∧ stream_fault env name = None
  ∧ Forall (λ s, steady s = true) (range_plan env name).

(** ** A small world to run the code in *)

Definition uuid1 : UUID :=
  mkUUID [xde; xad; xbe; xef; x00; x01; x02; x03; x04; x05; x06; x07; x08; x09; x0a; xff].

Definition uuid2 : UUID :=
  mkUUID [x00; x11; x22; x33; x44; x55; x66; x77; x88; x99; xaa; xbb; xcc; xdd; xee; xff].

Definition blk_file : File := mkFile "/tmp/blk" [x01; x02; x03; x04; x05] None.

Definition err503 : ext_error := pkg_error "googleapi: Error 503: Service Unavailable".

(** A parser that knows the two block ids of this world. *)
Definition known_Parse (s : string) : UUID + ext_error :=
  if decide (s = UUID_String uuid1) then inl uuid1
  else if decide (s = UUID_String uuid2) then inl uuid2
  else inr (pkg_error ("invalid UUID length: " +:+ s)).

(** The world in which [os.Stat] answers [stat], [os.Open] answers [opened],
    the bucket rejects the uploads of the objects in [down], and every
    listing is [entries].  The chunk buffer of a writer holds 256K.  The
    meta record is its own JSON document. *)
Definition world (stat : option ext_error) (opened : File + ext_error)
    (down : list string) (entries : ObjectIterator)
    : Env (list byte) := {|
  os_Stat := λ _, stat;
  os_Open := λ _, opened;
  ChunkBufferSize := 262144;
  unchunked_window := λ _, 0%N;
  upload_fault := λ name, if decide (name ∈ down) then Some err503 else None;
  reader_fault := λ _, None;
  stream_fault := λ _, None;
  range_plan := λ _, [Deliver 2; Deliver 1];
  range_eager := λ _, true;
  listing := λ _, entries;
  json_Marshal := λ m, inl m;
  json_Unmarshal := λ b, inl b;
  uuid_Parse := known_Parse;
|}.

Definition ok_env : Env (list byte) :=
  world None (inl blk_file) [] (mkIterator [] iterator_Done).

Definition st0 : State := mkState ∅ [].

(** The payload source is missing and the bucket rejects the upload of the
    bloom. *)
Definition missing_bloom_down_env : Env (list byte) :=
  world (Some (os_PathError "stat" "/tmp/blk" ENOENT))
        (inr (os_PathError "open" "/tmp/blk" ENOENT))
        [bloomFileName uuid1 "t1"] (mkIterator [] iterator_Done).

(** The payload source is missing, the bucket is healthy. *)
Definition missing_env : Env (list byte) :=
  world (Some (os_PathError "stat" "/tmp/blk" ENOENT))
        (inr (os_PathError "open" "/tmp/blk" ENOENT)) [] (mkIterator [] iterator_Done).

(** The payload source may not be looked at. *)
Definition eacces_env : Env (list byte) :=
  world (Some (os_PathError "stat" "/tmp/blk" EACCES))
        (inr (os_PathError "open" "/tmp/blk" EACCES)) [] (mkIterator [] iterator_Done).

(** The bucket rejects the upload of the index. *)
Definition index_down_env : Env (list byte) :=
  world None (inl blk_file) [indexFileName uuid1 "t1"] (mkIterator [] iterator_Done).

(** The bucket rejects the upload of [meta.json]. *)
Definition meta_down_env : Env (list byte) :=
  world None (inl blk_file) [metaFileName uuid1 "t1"] (mkIterator [] iterator_Done).

(** A listing with two block ids around a name that is none. *)
Definition listed : list ObjectAttrs :=
  [mkAttrs "t1/deadbeef-0001-0203-0405-060708090aff/" "";
   mkAttrs "t1/lost+found/" "";
   mkAttrs "t1/00112233-4455-6677-8899-aabbccddeeff/" ""].

Definition listing_env : Env (list byte) :=
  world None (inl blk_file) [] (mkIterator listed iterator_Done).

(** A bucket that holds one payload object. *)
Definition st_payload : State :=
  mkState {[ objectFileName uuid1 "t1" := [x01; x02; x03; x04; x05] ]} [].

(** ** The rest of the package *)

(** [time.Time], as the offset from the zero value [time.Time{}]. *)
Definition time_Time : Type := Z.

Section Readers.
Context {backend_BlockMeta : Type}.
Variable env : Env backend_BlockMeta.

(** [r.Attrs.LastModified] of the reader on an object. *)
Variable LastModified : string → time_Time.

Definition readAllWithModTime (st : State) (name : string)
    : list byte * time_Time * option error :=
  match NewReader env st name with
  | inr err => ([], 0%Z, Some (Ext err))
  | inl r =>
      let '(bytes, err) := ioutil_ReadAll env name r in
      match err with
      | Some e => ([], 0%Z, Some (Ext e))
      | None => (bytes, LastModified name, None)
      end
  end.

End Readers.

(** The content that the last successful close of the writer of [name] in a
    log gave the object, if the log has one. *)
Definition written (calls : list call) (name : string) : option (list byte) :=
  last (omap (λ c, match c with
                   | CallClose n (Some b) => if decide (n = name) then Some b else None
                   | _ => None
                   end) calls).

(** A tenant id that the key scheme leaves as it is. *)
Definition plain_tenant (tenantID : string) : bool :=
  negb (has_slash tenantID) && bool_decide (tenantID ≠ "")
  && bool_decide (tenantID ≠ ".").

(** The four keys of a block. *)
Definition block_keys (blockID : UUID) (tenantID : string) : list string :=
  [metaFileName blockID tenantID; bloomFileName blockID tenantID;
   indexFileName blockID tenantID; objectFileName blockID tenantID].

(** The value of a hexadecimal digit: its place in [hextable]. *)
Fixpoint index_of (c : ascii) (s : string) : N :=
  match s with
  | EmptyString => 0
  | String c' s' => if decide (c = c') then 0 else N.succ (index_of c s')
  end.

Definition hex_val (c : ascii) : N := index_of c hextable.

(** The entry of a listing for a "directory": [storage.ObjectAttrs] with only
    [Prefix] set, the name followed by the delimiter. *)
Definition dir_entry (name : string) : ObjectAttrs := mkAttrs (name +:+ "/") "".

(** *** More of the small world *)

(** The source file breaks off after two bytes. *)
Definition torn_file : File :=
  mkFile "/tmp/blk" [x01; x02] (Some (os_PathError "read" "/tmp/blk" EIO)).

Definition torn_env : Env (list byte) :=
  world None (inl torn_file) [] (mkIterator [] iterator_Done).

(** The ranged stream hands over two bytes and then fails. *)
Definition flaky_env : Env (list byte) := {|
  os_Stat := λ _, None;
  os_Open := λ _, inl blk_file;
  ChunkBufferSize := 262144;
  unchunked_window := λ _, 0%N;
  upload_fault := λ _, None;
  reader_fault := λ _, None;
  stream_fault := λ _, Some (2%nat, err503);
  range_plan := λ _, [Deliver 2; Fault err503];
  range_eager := λ _, false;
  listing := λ _, mkIterator [] iterator_Done;
  json_Marshal := λ m, inl m;
  json_Unmarshal := λ b, inl b;
  uuid_Parse := known_Parse;
|}.

(** A listing of the two blocks of tenant [t1], as the bucket gives it. *)
Definition blocks_env : Env (list byte) :=
  world None (inl blk_file) []
        (mkIterator [dir_entry (rootPath uuid1 "t1"); dir_entry (rootPath uuid2 "t1")]
                    iterator_Done).

(** A listing of which the second page cannot be fetched. *)
Definition flaky_listing_env : Env (list byte) :=
  world None (inl blk_file) [] (mkIterator [dir_entry "t1"] err503).

(** A listing of two tenants. *)
Definition tenants_env : Env (list byte) :=
  world None (inl blk_file) []
        (mkIterator [dir_entry "t1"; dir_entry "t2"] iterator_Done).

(** A bloom filter that does not fit into the chunk buffer. *)
Definition big_bloom : list byte := replicate (N.to_nat 262145) x00.

(** The bucket after a block was written in the healthy world. *)
Definition st_block : State :=
  (Write ok_env uuid1 "t1" [x7b; x7d] [x0a] [x0b; x0c] "/tmp/blk" st0).2.

(** * Properties *)

(** ** The key scheme *)

Lemma append_cons (c : ascii) (s t : string) : String c s +:+ t = String c (s +:+ t).
Proof. reflexivity. Qed.

Lemma append_nil_l (s : string) : "" +:+ s = s.
Proof. reflexivity. Qed.

Lemma append_nil_r (s : string) : s +:+ "" = s.
Proof. induction s; [done|]. rewrite append_cons. congruence. Qed.

Lemma append_assoc (a b c : string) : (a +:+ b) +:+ c = a +:+ (b +:+ c).
Proof. induction a; [done|]. rewrite !append_cons. congruence. Qed.

Lemma path_elements_name (e : string) :
  has_slash e = false → path_elements e = [e].
Proof.
  induction e as [|c e IH]; simpl; [done|].
  intros [Hc He]%orb_false_iff. apply bool_decide_eq_false in Hc.
  rewrite decide_False by done. by rewrite IH.
Qed.

Lemma path_elements_app (a s : string) :
  has_slash a = false →
  path_elements (a +:+ String slash s) = a :: path_elements s.
Proof.
  induction a as [|c a IH]; simpl.
  - done.
  - intros [Hc He]%orb_false_iff. apply bool_decide_eq_false in Hc.
    rewrite decide_False by done. by rewrite IH.
Qed.

Lemma path_elements_nonempty (s : string) : path_elements s ≠ [].
Proof. destruct s as [|c s]; simpl; [done|]. destruct (decide _); [done|]. by destruct (path_elements s). Qed.

Lemma path_elements_snoc (s n : string) :
  has_slash n = false →
  path_elements (s +:+ String slash n) = path_elements s ++ [n].
Proof.
  intros Hn. induction s as [|c s IH]; simpl.
  - by rewrite path_elements_name.
  - destruct (decide (c = slash)); [by rewrite IH|].
    rewrite IH. pose proof (path_elements_nonempty s). by destruct (path_elements s).
Qed.


Lemma append_eq_nil (a b : string) : a +:+ b = "" → a = "" ∧ b = "".
Proof. destruct a; [done|]. by rewrite append_cons. Qed.

Lemma length_append (a b : string) :
  String.length (a +:+ b) = (String.length a + String.length b)%nat.
Proof. induction a; [done|]. rewrite append_cons. simpl. by rewrite IHa. Qed.

Lemma has_slash_append (a b : string) :
  has_slash (a +:+ b) = has_slash a || has_slash b.
Proof.
  induction a as [|c a IH]; [done|]. rewrite append_cons. simpl.
  by rewrite IH, orb_assoc.
Qed.

Lemma is_name_spec (e : string) :
  is_name e = true ↔ has_slash e = false ∧ e ≠ "" ∧ e ≠ "." ∧ e ≠ "..".
Proof.
  unfold is_name. rewrite !andb_true_iff, negb_true_iff, !bool_decide_eq_true.
  tauto.
Qed.

Lemma clean_step_name (rooted : bool) (b : lazybuf) (e : string) :
  is_name e = true → clean_step rooted b e = Lazybuf (e :: out b) (dotdot b).
Proof.
  intros (_ & ? & ? & ?)%is_name_spec. unfold clean_step.
  by rewrite !decide_False.
Qed.

Lemma fold_clean_step_names (rooted : bool) (names : list string) (b : lazybuf) :
  Forall (λ e, is_name e = true) names →
  fold_left (clean_step rooted) names b = Lazybuf (rev names ++ out b) (dotdot b).
Proof.
  intros Hn. revert b. induction Hn as [|e names He _ IH]; intros b.
  - by destruct b.
  - simpl. rewrite IH, clean_step_name by done. simpl.
    by rewrite <-app_assoc.
Qed.

Lemma strings_Join_cons (e : string) (rest : list string) :
  rest ≠ [] →
  strings_Join (e :: rest) "/" = e +:+ String slash (strings_Join rest "/").
Proof. by destruct rest. Qed.

Lemma strings_Join_snoc (l : list string) (n : string) :
  strings_Join (l ++ [n]) "/" =
  match l with [] => "" | _ => strings_Join l "/" +:+ "/" end +:+ n.
Proof.
  induction l as [|a l IH]; [done|].
  change ((a :: l) ++ [n]) with (a :: (l ++ [n])).
  rewrite strings_Join_cons by (by destruct l). rewrite IH.
  destruct l as [|a' l]; [by rewrite append_assoc|].
  rewrite (strings_Join_cons a) by done.
  by rewrite !append_assoc.
Qed.

Lemma path_elements_Join (names : list string) :
  names ≠ [] → Forall (λ e, has_slash e = false) names →
  path_elements (strings_Join names "/") = names.
Proof.
  intros Hne Hn. induction Hn as [|e names He Hn IH]; [done|].
  destruct names as [|e' names].
  - by apply path_elements_name.
  - rewrite strings_Join_cons by done.
    rewrite path_elements_app by done. by rewrite IH.
Qed.

Lemma is_rooted_append (s t : string) : s ≠ "" → is_rooted (s +:+ t) = is_rooted s.
Proof. by destruct s. Qed.

Lemma path_Clean_nonempty (s : string) : path_Clean s ≠ "".
Proof.
  unfold path_Clean. destruct (decide (s = "")); [done|].
  destruct (is_rooted s); [done|]. by destruct (decide _).
Qed.

(** Cleaning [s/n] for a plain name [n] gives a string that ends in [n],
    after a prefix that depends on [s] only. *)
Lemma path_Clean_snoc (s : string) :
  s ≠ "" →
  ∃ Q, ∀ n, is_name n = true → path_Clean (s +:+ String slash n) = Q +:+ n.
Proof.
  intros Hs.
  set (b := fold_left (clean_step (is_rooted s)) (path_elements s) (Lazybuf [] 0)).
  set (P := match rev (out b) with
            | [] => "" | _ => strings_Join (rev (out b)) "/" +:+ "/" end).
  exists (if is_rooted s then "/" +:+ P else P). intros n Hn.
  pose proof Hn as (Hsl & Hne & _)%is_name_spec.
  unfold path_Clean. rewrite decide_False by (by destruct s).
  rewrite is_rooted_append by done.
  rewrite path_elements_snoc, fold_left_app by done. simpl.
  rewrite clean_step_name by done. simpl.
  rewrite strings_Join_snoc. fold b. fold P.
  destruct (is_rooted s); [by rewrite append_assoc|].
  rewrite decide_False; [done|]. by intros [_ ?]%append_eq_nil.
Qed.

Lemma has_slash_hex_Encode (src : list byte) : has_slash (hex_Encode src) = false.
Proof.
  induction src as [|v src IH]; [done|].
  simpl. rewrite IH. by destruct v.
Qed.

Lemma has_slash_UUID_String (u : UUID) : has_slash (UUID_String u) = false.
Proof.
  unfold UUID_String. by rewrite !has_slash_append, !has_slash_hex_Encode.
Qed.

Lemma length_UUID_String (u : UUID) : (4 ≤ String.length (UUID_String u))%nat.
Proof. unfold UUID_String. rewrite !length_append. simpl. lia. Qed.

Lemma is_name_UUID_String (u : UUID) : is_name (UUID_String u) = true.
Proof.
  apply is_name_spec. split; [apply has_slash_UUID_String|].
  pose proof (length_UUID_String u) as Hlen.
  repeat split; intros Heq; rewrite Heq in Hlen; simpl in Hlen; lia.
Qed.

Lemma rootPath_nonempty (blockID : UUID) (tenantID : string) :
  rootPath blockID tenantID ≠ "".
Proof.
  unfold rootPath. simpl.
  pose proof (is_name_UUID_String blockID) as (_ & ? & _)%is_name_spec.
  destruct (decide (tenantID = "")); [|apply path_Clean_nonempty].
  rewrite decide_False by done. apply path_Clean_nonempty.
Qed.

(** The four keys of a block share everything but the component's name. *)
Lemma key_shape (blockID : UUID) (tenantID : string) :
  ∃ Q, metaFileName blockID tenantID = Q +:+ "meta.json"
     ∧ bloomFileName blockID tenantID = Q +:+ "bloom"
     ∧ indexFileName blockID tenantID = Q +:+ "index"
     ∧ objectFileName blockID tenantID = Q +:+ "data".
Proof.
  destruct (path_Clean_snoc (rootPath blockID tenantID)) as [Q HQ];
    [apply rootPath_nonempty|].
  exists Q. unfold metaFileName, bloomFileName, indexFileName, objectFileName.
  simpl. rewrite !decide_False by apply rootPath_nonempty.
  repeat split; by apply HQ.
Qed.

Lemma keys_distinct (blockID : UUID) (tenantID : string) :
  let meta := metaFileName blockID tenantID in
  let bloom := bloomFileName blockID tenantID in
  let index := indexFileName blockID tenantID in
  let data := objectFileName blockID tenantID in
  bloom ≠ index ∧ bloom ≠ data ∧ bloom ≠ meta ∧ index ≠ data ∧ index ≠ meta
  ∧ data ≠ meta.
Proof.
  destruct (key_shape blockID tenantID) as (Q & -> & -> & -> & ->). simpl.
  repeat split; by intros ?%(inj (String.append Q)).
Qed.

(** A tenant name the key scheme leaves as it is: not empty, without slash,
    and not [.]. *)
Lemma path_Clean_tenant_names (t : string) (names : list string) :
  has_slash t = false → t ≠ "" → t ≠ "." → names ≠ [] →
  Forall (λ e, is_name e = true) names →
  path_Clean (strings_Join (t :: names) "/") = strings_Join (t :: names) "/".
Proof.
  intros Ht Hne Hdot Hnames Hall.
  assert (Forall (λ e, has_slash e = false) (t :: names)) as Hsl.
  { constructor; [done|]. eapply Forall_impl; [exact Hall|].
    by intros e (? & _)%is_name_spec. }
  rewrite strings_Join_cons by done.
  unfold path_Clean. rewrite decide_False by (by destruct t).
  rewrite is_rooted_append by done.
  assert (is_rooted t = false) as ->.
  { destruct t as [|c t]; [done|]. simpl in *.
    by apply orb_false_iff in Ht as [-> _]. }
  rewrite <-strings_Join_cons by done.
  rewrite path_elements_Join by done. simpl.
  assert (clean_step false (Lazybuf [] 0) t = Lazybuf [t] (dotdot (clean_step false (Lazybuf [] 0) t))) as ->.
  { unfold clean_step. rewrite !decide_False by done.
    by destruct (decide (t = "..")) as [->|]. }
  rewrite fold_clean_step_names by done. simpl.
  rewrite rev_app_distr, rev_involutive. simpl.
  destruct (decide _) as [Heq|]; [|done].
  destruct names; [done|]. by apply append_eq_nil in Heq as [? _].
Qed.

Lemma rootPath_plain (blockID : UUID) (tenantID : string) :
  has_slash tenantID = false → tenantID ≠ "" → tenantID ≠ "." →
  rootPath blockID tenantID = tenantID +:+ "/" +:+ UUID_String blockID.
Proof.
  intros Hsl Hne Hdot. unfold rootPath. simpl. rewrite decide_False by done.
  apply (path_Clean_tenant_names tenantID [UUID_String blockID]); try done.
  repeat constructor. apply is_name_UUID_String.
Qed.

Lemma path_Join_plain (blockID : UUID) (tenantID n : string) :
  has_slash tenantID = false → tenantID ≠ "" → tenantID ≠ "." →
  is_name n = true →
  path_Join [rootPath blockID tenantID; n] =
  (tenantID +:+ "/" +:+ UUID_String blockID) +:+ "/" +:+ n.
Proof.
  intros Hsl Hne Hdot Hn. simpl.
  rewrite decide_False by apply rootPath_nonempty.
  rewrite rootPath_plain by done.
  trans (path_Clean (strings_Join [tenantID; UUID_String blockID; n] "/")).
  { f_equal. simpl. by rewrite !append_assoc. }
  rewrite path_Clean_tenant_names; try done.
  - simpl. by rewrite !append_assoc.
  - repeat constructor; [apply is_name_UUID_String|done].
Qed.

(** C8, as stated, fails: for the tenant [.] the keys lose the tenant segment,
    because [path.Join] cleans the joined path. *)
Lemma key_scheme_dot_tenant :
  metaFileName uuid1 "." = "deadbeef-0001-0203-0405-060708090aff/meta.json"
  ∧ metaFileName uuid1 "." ≠ "." +:+ "/" +:+ UUID_String uuid1 +:+ "/" +:+ "meta.json".
Proof. split; [reflexivity|]. vm_compute. discriminate. Qed.

(** C8 (amended): for every block id and every tenant id that is not empty,
    holds no slash and is not [.], the key scheme maps the pair to exactly the
    four keys tenant/block/meta.json, tenant/block/bloom, tenant/block/index
    and tenant/block/data.  The four functions are total and pure by
    construction. *)
Theorem key_scheme (blockID : UUID) (tenantID : string) :
  has_slash tenantID = false → tenantID ≠ "" → tenantID ≠ "." →
  let root := tenantID +:+ "/" +:+ UUID_String blockID in
  metaFileName blockID tenantID = root +:+ "/" +:+ "meta.json"
  ∧ bloomFileName blockID tenantID = root +:+ "/" +:+ "bloom"
  ∧ indexFileName blockID tenantID = root +:+ "/" +:+ "index"
  ∧ objectFileName blockID tenantID = root +:+ "/" +:+ "data".
Proof.
  intros Hsl Hne Hdot root.
  unfold metaFileName, bloomFileName, indexFileName, objectFileName.
  repeat split; by apply path_Join_plain.
Qed.

Lemma key_scheme_witness :
  metaFileName uuid1 "t1" = "t1/deadbeef-0001-0203-0405-060708090aff/meta.json"
  ∧ bloomFileName uuid1 "t1" = "t1/deadbeef-0001-0203-0405-060708090aff/bloom"
  ∧ indexFileName uuid1 "t1" = "t1/deadbeef-0001-0203-0405-060708090aff/index"
  ∧ objectFileName uuid1 "t1" = "t1/deadbeef-0001-0203-0405-060708090aff/data".
Proof. apply (key_scheme uuid1 "t1"); [reflexivity|discriminate|discriminate]. Defined.

(** ** [Write] *)

(** The proofs about [Write] never look inside the keys: all they need is
    [keys_distinct]. *)
#[local] Arguments metaFileName : simpl never.
#[local] Arguments reported : simpl never.
#[local] Arguments bloomFileName : simpl never.
#[local] Arguments indexFileName : simpl never.
#[local] Arguments objectFileName : simpl never.

Section WriteFacts.
Context {backend_BlockMeta : Type}.
Variable env : Env backend_BlockMeta.
Variables (blockID : UUID) (tenantID : string) (meta : backend_BlockMeta).
Variables (bBloom bIndex : list byte) (objectFilePath : string).

Abbreviation Write_ := (Write env blockID tenantID meta bBloom bIndex objectFilePath).
Abbreviation step_error_ := (step_error env blockID tenantID meta bBloom bIndex objectFilePath).
Abbreviation performed_ := (performed env blockID tenantID meta bBloom bIndex objectFilePath).
Abbreviation stop_step_ := (stop_step env blockID tenantID meta bBloom bIndex objectFilePath).
Abbreviation step_calls_ := (step_calls env blockID tenantID meta bBloom bIndex objectFilePath).
Abbreviation step_component_ := (step_component env blockID tenantID meta bBloom bIndex objectFilePath).

Lemma reported_Some (w : Writer) (b : list byte) (e : ext_error) :
  reported env w b = Some e → upload_fault env (w_name w) = Some e.
Proof. unfold reported. by destruct (decide _). Qed.

Lemma reported_accepted (w : Writer) (b : list byte) :
  upload_fault env (w_name w) = None → reported env w b = None.
Proof. unfold reported. intros ->. by destruct (decide _). Qed.

(** A run of [writeAll]: what it returns, and the two calls it makes. *)
Lemma writeAll_run (name : string) (b : list byte) (st : State) :
  writeAll env name b st =
  (Ext <$> reported env (writer env name) b,
   mkState (replay [closes env name b] (objects st))
           (trace st ++ [CallWrite name b; closes env name b])).
Proof.
  unfold writeAll, Writer_Write, Writer_Close, closes, log, mbind, mret,
    M_bind, M_ret. destruct st as [objs tr]. cbn [w_err w_name writer objects trace].
  destruct (reported env (writer env name) b) as [e|] eqn:Hrep.
  - apply reported_Some in Hrep. cbn in Hrep. rewrite Hrep. cbn.
    by rewrite <-app_assoc.
  - cbn. destruct (upload_fault env name); cbn; by rewrite <-app_assoc.
Qed.

(** A run of [Write] is determined by the step in which it returns. *)
Lemma Write_run (st : State) :
  Write_ st =
  (step_error_ stop_step_,
   mkState (replay (performed_ stop_step_) (objects st))
           (trace st ++ performed_ stop_step_)).
Proof.
  unfold Write. unfold mbind at 1. unfold M_bind at 1.
  rewrite writeAll_run.
  unfold stop_step, performed, step_calls, step_deferred, step_error.
  generalize (bloomFileName blockID tenantID) (indexFileName blockID tenantID)
    (objectFileName blockID tenantID) (metaFileName blockID tenantID).
  intros bloom index data mt. destruct st as [objs tr].
  cbn [find all_steps objects trace].
  destruct (reported env (writer env bloom) bBloom) as [e|] eqn:Hb;
    cbn; [rewrite <-?app_assoc; reflexivity|].
  unfold mbind at 1. unfold M_bind at 1. rewrite writeAll_run.
  cbn [objects trace].
  destruct (reported env (writer env index) bIndex) as [e|] eqn:Hi;
    cbn; [rewrite <-?app_assoc; reflexivity|].
  unfold fileExists, log, mbind, mret, M_bind, M_ret. cbn.
  destruct (os_IsNotExist (os_Stat env objectFilePath)); cbn;
    [rewrite <-?app_assoc; reflexivity|].
  destruct (os_Open env objectFilePath) as [src|]; cbn;
    [|rewrite <-?app_assoc; reflexivity].
  unfold io_Copy, Writer_Close, File_Close, log, mbind, mret, M_bind, M_ret.
  cbn [w_err w_name w_buf writer objects trace app].
  destruct (reported env (writer env data) (f_data src)) as [e|] eqn:Hd.
  { apply reported_Some in Hd. cbn in Hd. unfold closes. rewrite Hd. cbn.
    rewrite <-?app_assoc; reflexivity. }
  destruct (f_err src); cbn.
  { unfold closes. destruct (upload_fault env data); cbn;
      rewrite <-?app_assoc; reflexivity. }
  destruct (json_Marshal env meta) as [bMeta|]; cbn.
  2: { unfold closes. destruct (upload_fault env data); cbn;
         rewrite <-?app_assoc; reflexivity. }
  rewrite writeAll_run. cbn [objects trace].
  destruct (reported env (writer env mt) bMeta) as [e|] eqn:Hm; cbn;
    unfold closes; destruct (upload_fault env data), (upload_fault env mt); cbn;
    rewrite <-?app_assoc; reflexivity.
Qed.

Lemma stop_step_first (s : step) (e : error) :
  step_error_ s = Some e →
  (∀ s', (step_index s' < step_index s)%nat → step_error_ s' = None) →
  stop_step_ = s.
Proof.
  intros He Hbefore. unfold stop_step, all_steps.
  destruct s; cbn [find];
    rewrite ?(Hbefore StepBloom), ?(Hbefore StepIndex),
      ?(Hbefore StepSourceCheck), ?(Hbefore StepOpen), ?(Hbefore StepCopy),
      ?(Hbefore StepMarshal) by (simpl; lia);
    rewrite He; reflexivity.
Qed.

Lemma stop_step_success :
  (∀ s, step_error_ s = None) → stop_step_ = StepMeta.
Proof. intros Hok. unfold stop_step, all_steps. cbn [find]. by rewrite !Hok. Qed.

Lemma stop_step_error_None :
  step_error_ stop_step_ = None → ∀ s, step_error_ s = None.
Proof.
  unfold stop_step, all_steps. cbn [find].
  repeat match goal with
  | |- context [bool_decide (is_Some (step_error_ ?s))] =>
      let H := fresh "Hs" in
      destruct (step_error_ s) eqn:H;
      [rewrite bool_decide_true by eauto; cbn [default from_option id]; rewrite H; discriminate
      |rewrite (bool_decide_false (is_Some None)) by (by intros [??])]
  end.
  intros _ []; assumption.
Qed.

(** The calls of a later step are not among those of a run that ends
    earlier. *)
Lemma performed_no_later_call (s s' : step) (c : call) :
  (step_index s < step_index s')%nat → c ∈ step_calls_ s' → c ∉ performed_ s.
Proof.
  destruct (keys_distinct blockID tenantID) as (? & ? & ? & ? & ? & ?).
  unfold performed, step_calls, step_deferred, closes.
  destruct (os_Open env objectFilePath), (json_Marshal env meta);
    destruct s, s'; simpl; try lia; intros _;
    intros Hc; rewrite ?elem_of_cons, ?elem_of_nil in Hc;
    repeat (destruct Hc as [->|Hc]); try done;
    repeat (apply not_elem_of_cons; split; [congruence|]);
    apply not_elem_of_nil.
Qed.

(** What the steps that went through tell about the collaborators. *)
Lemma step_error_None_inv (s : step) :
  step_error_ s = None →
  match s with
  | StepBloom =>
      reported env (writer env (bloomFileName blockID tenantID)) bBloom = None
  | StepIndex =>
      reported env (writer env (indexFileName blockID tenantID)) bIndex = None
  | StepSourceCheck => os_IsNotExist (os_Stat env objectFilePath) = false
  | StepOpen => ∃ src, os_Open env objectFilePath = inl src
  | StepCopy =>
      ∀ src, os_Open env objectFilePath = inl src →
        reported env (writer env (objectFileName blockID tenantID)) (f_data src)
        = None
        ∧ f_err src = None
  | StepMarshal => ∃ bMeta, json_Marshal env meta = inl bMeta
  | StepMeta =>
      ∀ bMeta, json_Marshal env meta = inl bMeta →
        reported env (writer env (metaFileName blockID tenantID)) bMeta = None
  end.
Proof.
  destruct s; simpl.
  - by intros ?%fmap_None.
  - by intros ?%fmap_None.
  - by destruct (os_IsNotExist _).
  - destruct (os_Open env objectFilePath); [eauto|done].
  - intros H src Hsrc. rewrite Hsrc in H.
    destruct (reported env _ _); [done|]. by apply fmap_None in H.
  - destruct (json_Marshal env meta); [eauto|done].
  - intros H bMeta Hm. rewrite Hm in H. by apply fmap_None in H.
Qed.

(** A run without error went through all steps: every call returned nil,
    and each writer was closed, which created its object unless the bucket
    rejected the upload. *)
Lemma Write_success (st : State) :
  (Write_ st).1 = None →
  ∃ src bMeta,
    os_Open env objectFilePath = inl src ∧ f_err src = None
    ∧ json_Marshal env meta = inl bMeta
    ∧ trace (Write_ st).2 = trace st ++
        [CallWrite (bloomFileName blockID tenantID) bBloom;
         closes env (bloomFileName blockID tenantID) bBloom;
         CallWrite (indexFileName blockID tenantID) bIndex;
         closes env (indexFileName blockID tenantID) bIndex;
         CallStat objectFilePath; CallOpen objectFilePath;
         CallCopy (objectFileName blockID tenantID) (f_name src);
         CallWrite (metaFileName blockID tenantID) bMeta;
         closes env (metaFileName blockID tenantID) bMeta;
         closes env (objectFileName blockID tenantID) (f_data src);
         CallFileClose (f_name src)]
    ∧ objects (Write_ st).2 =
        replay [closes env (bloomFileName blockID tenantID) bBloom;
                closes env (indexFileName blockID tenantID) bIndex;
                closes env (metaFileName blockID tenantID) bMeta;
                closes env (objectFileName blockID tenantID) (f_data src)]
               (objects st).
Proof.
  rewrite Write_run. cbn [fst snd objects trace]. intros Hok.
  pose proof (stop_step_error_None Hok) as Hall.
  rewrite (stop_step_success Hall).
  pose proof (step_error_None_inv _ (Hall StepOpen)) as [src Hsrc].
  pose proof (step_error_None_inv _ (Hall StepCopy) src Hsrc) as [_ Hf].
  pose proof (step_error_None_inv _ (Hall StepMarshal)) as [bMeta Hm].
  exists src, bMeta. split_and!; [done..| |];
    unfold performed, step_calls, step_deferred; cbn;
    rewrite Hsrc, Hm; reflexivity.
Qed.

(** Where a run puts the calls that create the objects when the bucket
    accepts the four uploads: the payload object comes to exist after
    [meta.json]. *)
Lemma Write_finalization_order (st : State) :
  (Write_ st).1 = None →
  (∀ name, name ∈ block_keys blockID tenantID → upload_fault env name = None) →
  ∃ calls, trace (Write_ st).2 = trace st ++ calls
    ∧ uploads calls =
        [bloomFileName blockID tenantID; indexFileName blockID tenantID;
         objectFileName blockID tenantID; metaFileName blockID tenantID]
    ∧ finalized calls =
        [bloomFileName blockID tenantID; indexFileName blockID tenantID;
         metaFileName blockID tenantID; objectFileName blockID tenantID].
Proof.
  intros (src & bMeta & _ & _ & _ & Htr & _)%Write_success Hacc.
  eexists. split; [exact Htr|]. unfold closes.
  rewrite !Hacc by (unfold block_keys; rewrite !elem_of_cons; tauto).
  split; reflexivity.
Qed.

(** A failure that a call of [Write] returns ends the run: [Write] returns
    the error of the first step whose call returns one, and the calls made
    are those of the steps up to it and the deferred closes, none of a later
    step. *)
Lemma Write_returned_failure (st : State) (s : step) (e : error) :
  step_error_ s = Some e →
  (∀ s', (step_index s' < step_index s)%nat → step_error_ s' = None) →
  (Write_ st).1 = Some e
  ∧ trace (Write_ st).2 = trace st ++ performed_ s
  ∧ (∀ s' c, (step_index s < step_index s')%nat →
       c ∈ step_calls_ s' → c ∉ performed_ s).
Proof.
  intros He Hbefore. rewrite Write_run. cbn [fst snd objects trace].
  rewrite (stop_step_first s e He Hbefore).
  split_and!; [done|done|].
  intros s' c. apply performed_no_later_call.
Qed.

(** With the source file missing, a run ends in one of the first three
    steps. *)
Lemma stop_step_source_missing :
  os_IsNotExist (os_Stat env objectFilePath) = true →
  (stop_step_ = StepBloom
   ∧ is_Some (reported env (writer env (bloomFileName blockID tenantID)) bBloom))
  ∨ (stop_step_ = StepIndex
     ∧ reported env (writer env (bloomFileName blockID tenantID)) bBloom = None
     ∧ is_Some (reported env (writer env (indexFileName blockID tenantID)) bIndex))
  ∨ (stop_step_ = StepSourceCheck
     ∧ reported env (writer env (bloomFileName blockID tenantID)) bBloom = None
     ∧ reported env (writer env (indexFileName blockID tenantID)) bIndex = None).
Proof.
  intros Hmiss. unfold stop_step, all_steps, step_error. cbn [find].
  destruct (reported env (writer env (bloomFileName blockID tenantID)) bBloom) eqn:Hb;
    [left; cbn; eauto|right].
  destruct (reported env (writer env (indexFileName blockID tenantID)) bIndex) eqn:Hi;
    [left; cbn; eauto|right].
  rewrite Hmiss. by cbn.
Qed.

(** C1 (amended): when the payload source file does not exist, [Write]
    returns an error, which is the source-missing error whenever the bloom
    and index writes before the check returned no error, and otherwise the
    error of the first of the two writes that returned one; and the meta
    key is never written: no bytes are handed to it, no object is created
    under it, and the bucket holds under it what it held before. *)
Theorem Write_source_missing (st : State) :
  os_IsNotExist (os_Stat env objectFilePath) = true →
  is_Some (Write_ st).1
  ∧ (reported env (writer env (bloomFileName blockID tenantID)) bBloom = None →
     reported env (writer env (indexFileName blockID tenantID)) bIndex = None →
     (Write_ st).1 = Some (ErrObjectFileNotFound objectFilePath))
  ∧ (∀ e, reported env (writer env (bloomFileName blockID tenantID)) bBloom
          = Some e → (Write_ st).1 = Some (Ext e))
  ∧ (∀ e, reported env (writer env (bloomFileName blockID tenantID)) bBloom
          = None →
          reported env (writer env (indexFileName blockID tenantID)) bIndex
          = Some e → (Write_ st).1 = Some (Ext e))
  ∧ (objects (Write_ st).2 !! metaFileName blockID tenantID
     = objects st !! metaFileName blockID tenantID)
  ∧ ∃ calls, trace (Write_ st).2 = trace st ++ calls
      ∧ (metaFileName blockID tenantID ∉ uploads calls)
      ∧ (metaFileName blockID tenantID ∉ finalized calls).
Proof.
  intros Hmiss. rewrite Write_run. cbn [fst snd objects trace].
  destruct (keys_distinct blockID tenantID)
    as (Hbi & Hbd & Hbm & Hid & Him & Hdm).
  destruct (stop_step_source_missing Hmiss)
    as [[-> [e Hb]]|[(-> & Hb & [e Hi])|(-> & Hb & Hi)]];
    unfold performed, step_calls, step_deferred, closes, step_error; cbn;
    rewrite ?Hb, ?Hi, ?Hmiss; cbn.
  all: destruct (upload_fault env (bloomFileName blockID tenantID));
    destruct (upload_fault env (indexFileName blockID tenantID)); cbn.
  all: split_and!;
    [eauto|congruence|congruence|congruence|by rewrite ?lookup_insert_ne|].
  all: eexists; split; [reflexivity|]; cbn.
  all: split; repeat (apply not_elem_of_cons; split; [congruence|]);
    apply not_elem_of_nil.
Qed.

Lemma step_error_not_found (s : step) (q : string) :
  step_error_ s = Some (ErrObjectFileNotFound q) →
  os_IsNotExist (os_Stat env objectFilePath) = true.
Proof.
  destruct s; simpl; repeat case_match; try done;
    by intros (? & _ & ?)%fmap_Some.
Qed.

(** C10: [Write] returns its object-file-not-found error only when the stat
    of the payload source reports that the file does not exist; when stat
    succeeds or fails for another reason, the existence check passes,
    [Write] goes on to open the file, and an error of the open is what
    [Write] returns. *)
Theorem Write_source_check (st : State) :
  (∀ q, (Write_ st).1 = Some (ErrObjectFileNotFound q) →
        os_IsNotExist (os_Stat env objectFilePath) = true)
  ∧ (os_IsNotExist (os_Stat env objectFilePath) = false →
     upload_fault env (bloomFileName blockID tenantID) = None →
     upload_fault env (indexFileName blockID tenantID) = None →
     (fileExists env objectFilePath st).1 = true
     ∧ CallOpen objectFilePath ∈ trace (Write_ st).2
     ∧ ∀ e, os_Open env objectFilePath = inr e →
            (Write_ st).1 = Some (Ext e)).
Proof.
  split.
  - intros q. rewrite Write_run. apply step_error_not_found.
  - intros Hstat Hb Hi.
    split; [unfold fileExists, log, mbind, mret, M_bind, M_ret; cbn;
            by rewrite Hstat|].
    pose proof (reported_accepted (writer env (bloomFileName blockID tenantID))
                  bBloom Hb) as Hrb.
    pose proof (reported_accepted (writer env (indexFileName blockID tenantID))
                  bIndex Hi) as Hri.
    assert (∀ s, (step_index s < 3)%nat → step_error_ s = None) as Hfirst.
    { intros [] Hlt; simpl in *; try lia; by rewrite ?Hrb, ?Hri, ?Hstat. }
    rewrite Write_run. cbn [fst snd trace].
    destruct (os_Open env objectFilePath) as [src|e0] eqn:Hopen.
    + split; [|done]. apply elem_of_app. right.
      assert (CallOpen objectFilePath ∈ step_calls_ StepOpen) as Hin
        by (simpl; apply list_elem_of_singleton; done).
      unfold performed. apply elem_of_app. left.
      apply list_elem_of_In, in_flat_map. exists StepOpen.
      split; [|by apply list_elem_of_In].
      apply list_elem_of_In. unfold steps_upto.
      assert (3 ≤ step_index stop_step_)%nat as Hge.
      { destruct stop_step_ eqn:Hs; simpl; try lia;
          unfold stop_step, all_steps in Hs; cbn [find] in Hs;
          rewrite ?(Hfirst StepBloom), ?(Hfirst StepIndex),
            ?(Hfirst StepSourceCheck) in Hs by (simpl; lia);
          rewrite ?(bool_decide_false (is_Some None)) in Hs
            by (by intros [??]);
          repeat (case_bool_decide; [discriminate|]); discriminate. }
      destruct stop_step_; simpl in *; try lia;
        rewrite !elem_of_cons; tauto.
    + assert (stop_step_ = StepOpen) as ->.
      { apply (stop_step_first StepOpen (Ext e0)).
        - simpl. by rewrite Hopen.
        - intros s Hlt. apply Hfirst. simpl in Hlt. lia. }
      split; [|simpl; rewrite Hopen; congruence].
      unfold performed. cbn. rewrite Hopen. cbn.
      rewrite !elem_of_app, ?elem_of_cons. tauto.
Qed.

End WriteFacts.

(** ** The read loop of [readRange] *)

Lemma store_fits (p d : list byte) :
  (length d ≤ length p)%nat → store p d = d ++ drop (length d) p.
Proof.
  intros Hle. unfold store. rewrite take_ge; [done|].
  rewrite length_app, length_drop. lia.
Qed.

Lemma length_store (p d : list byte) : length (store p d) = length p.
Proof.
  unfold store. rewrite length_take, length_app, length_drop. lia.
Qed.

(** One read of the ranged stream while it still holds bytes. *)
Lemma RangeReader_Read_steady (remain : list byte) (k : nat) (plan : list read_step)
    (eager : bool) (n : nat) :
  remain ≠ [] →
  Read (mkRangeReader remain (Deliver k :: plan) eager) n =
  ((Z.of_nat (length (take (k `min` n) remain)), take (k `min` n) remain,
    end_of_stream eager (drop (k `min` n) remain)),
   mkRangeReader (drop (k `min` n) remain) plan eager).
Proof. intros Hne. unfold Read, RangeReader_Read. simpl. by destruct remain. Qed.

Lemma RangeReader_Read_default (remain : list byte) (eager : bool) (n : nat) :
  remain ≠ [] →
  Read (mkRangeReader remain [] eager) n =
  ((Z.of_nat (length (take n remain)), take n remain,
    end_of_stream eager (drop n remain)),
   mkRangeReader (drop n remain) [] eager).
Proof. intros Hne. unfold Read, RangeReader_Read. simpl. by destruct remain. Qed.

Lemma RangeReader_Read_EOF (plan : list read_step) (eager : bool) (n : nat) :
  Forall (λ s, steady s = true) plan →
  Read (mkRangeReader [] plan eager) n =
  ((0%Z, [], Some io_EOF), mkRangeReader [] (tail plan) eager).
Proof.
  intros Hplan. unfold Read, RangeReader_Read. simpl.
  destruct Hplan as [|[] ? Hs]; done.
Qed.

Lemma end_of_stream_cases (eager : bool) (remain : list byte) :
  (end_of_stream eager remain = Some io_EOF ∧ remain = [])
  ∨ end_of_stream eager remain = None.
Proof.
  unfold end_of_stream. destruct eager; simpl; [|by right].
  case_bool_decide; [by left|by right].
Qed.

Lemma end_of_stream_more (eager : bool) (remain : list byte) :
  remain ≠ [] → end_of_stream eager remain = None.
Proof.
  intros Hne. by destruct (end_of_stream_cases eager remain) as [[_ ?]|?].
Qed.

(** The loop on a stream whose reads all make progress: it fills the free part
    of the buffer with the bytes the stream holds, as many as fit, whatever
    the sizes of the chunks, and returns nil. *)
Lemma readRange_loop_steady (fuel : nat) (r : RangeReader) (filled rest : list byte) :
  Forall (λ s, steady s = true) (rr_plan r) →
  (length rest `min` length (rr_remain r) < fuel)%nat →
  ∃ r' total,
    readRange_loop fuel r (filled ++ rest) (Z.of_nat (length filled)) =
    (Some (Returned None),
     filled ++ take (length rest) (rr_remain r)
            ++ drop (length (rr_remain r)) rest, r', total).
Proof.
  revert r filled rest.
  induction fuel as [|fuel IH]; intros [remain plan eager] filled rest Hplan Hfuel;
    simpl in *; [lia|].
  rewrite decide_True by (rewrite length_app; lia).
  rewrite Nat2Z.id, drop_app_length, take_app_length.
  destruct remain as [|b remain'] eqn:Hremain.
  { rewrite RangeReader_Read_EOF by done. simpl.
    rewrite store_fits by (simpl; lia). simpl.
    rewrite take_nil. eauto. }
  rewrite <-Hremain in *.
  assert (remain ≠ []) as Hne by (by subst).
  assert (∃ c plan', (c ≤ length rest)%nat ∧ (rest ≠ [] → c ≠ 0%nat)
    ∧ Forall (λ s, steady s = true) plan'
    ∧ Read (mkRangeReader remain plan eager) (length rest) =
      ((Z.of_nat (length (take c remain)), take c remain,
        end_of_stream eager (drop c remain)),
       mkRangeReader (drop c remain) plan' eager))
    as (c & plan' & Hc & Hc0 & Hplan' & ->).
  { destruct Hplan as [|[[|k]|] plan' Hs Hplan']; try done.
    - exists (length rest), []. rewrite RangeReader_Read_default by done.
      split_and!; try done. by destruct rest.
    - exists (S k `min` length rest), plan'.
      rewrite RangeReader_Read_steady by done.
      split_and!; try done; [lia|]. destruct rest; simpl; [done|lia]. }
  clear Hremain b remain'.
  set (d := take c remain).
  assert (length d = c `min` length remain) as Hd by apply length_take.
  rewrite store_fits by lia.
  destruct (end_of_stream_cases eager (drop c remain)) as [[-> Hend]| ->].
  { (* the last bytes came with io.EOF *)
    simpl. apply drop_nil_inv in Hend.
    exists (mkRangeReader (drop c remain) plan' eager), (Z.of_nat (length filled)).
    do 3 f_equal. rewrite Hd. unfold d. rewrite !(take_ge remain) by lia.
    do 2 f_equal. f_equal. lia. }
  destruct (decide (Z.of_nat (length d) = 0%Z)) as [Hz|Hnz].
  - assert (rest = []) as ->.
    { destruct rest; [done|]. destruct remain; [done|].
      simpl in *. specialize (Hc0 ltac:(done)). lia. }
    assert (d = []) as -> by (apply nil_length_inv; lia).
    simpl. rewrite drop_nil. eauto.
  - destruct (IH (mkRangeReader (drop c remain) plan' eager) (filled ++ d)
                 (drop (length d) rest)) as (r' & total & Hr'); simpl.
    { done. }
    { rewrite !length_drop. lia. }
    rewrite length_app, Nat2Z.inj_add, <-(assoc_L (++)) in Hr'.
    rewrite Hr'. exists r', total. do 3 f_equal.
    rewrite <-(assoc_L (++)). f_equal. simpl.
    rewrite !length_drop, drop_drop, (assoc_L (++)). unfold d at 1.
    rewrite take_take_drop, Hd.
    destruct (decide (c ≤ length remain)%nat).
    + f_equal; f_equal; lia.
    + rewrite !(take_ge remain) by lia. f_equal. f_equal. lia.
Qed.

(** A run of reads that make progress, fit the free part of the buffer and
    leave bytes in the stream: each read stores its chunk behind the previous
    one and the loop goes on. *)
Lemma readRange_loop_prefix (pre : list read_step) (remain : list byte)
    (plan : list read_step) (eager : bool) (filled rest : list byte) (fuel : nat) :
  Forall (λ s, steady s = true) pre →
  (plan_bytes pre ≤ length rest)%nat →
  (plan_bytes pre < length remain)%nat →
  readRange_loop (length pre + fuel) (mkRangeReader remain (pre ++ plan) eager)
    (filled ++ rest) (Z.of_nat (length filled)) =
  readRange_loop fuel (mkRangeReader (drop (plan_bytes pre) remain) plan eager)
    ((filled ++ take (plan_bytes pre) remain) ++ drop (plan_bytes pre) rest)
    (Z.of_nat (length (filled ++ take (plan_bytes pre) remain))).
Proof.
  intros Hpre. revert remain filled rest.
  induction Hpre as [|[[|k]|] pre Hs _ IH]; intros remain filled rest Hfit Hmore;
    try done.
  { simpl. by rewrite !drop_0, take_0, !app_nil_r. }
  change (plan_bytes (Deliver (S k) :: pre)) with (S k + plan_bytes pre)%nat in *.
  set (m := plan_bytes pre) in *.
  simpl readRange_loop.
  rewrite decide_True by (rewrite length_app; lia).
  rewrite Nat2Z.id, drop_app_length, take_app_length.
  rewrite RangeReader_Read_steady by (intros ->; simpl in *; lia).
  replace (S k `min` length rest)%nat with (S k) by lia.
  assert (length (take (S k) remain) = S k) as Hlen
    by (rewrite length_take; lia).
  rewrite end_of_stream_more
    by (intros Hnil%(f_equal length); rewrite length_drop in Hnil;
        simpl in Hnil; lia).
  rewrite Hlen, decide_False by lia.
  rewrite store_fits by lia. rewrite Hlen.
  rewrite (assoc_L (++)).
  replace (Z.of_nat (length filled) + Z.of_nat (S k))%Z
    with (Z.of_nat (length (filled ++ take (S k) remain)))
    by (rewrite length_app, Hlen; lia).
  rewrite IH by (rewrite !length_drop; lia).
  rewrite !drop_drop, <-!(assoc_L (++) filled), take_take_drop.
  reflexivity.
Qed.

(** A read of the ranged stream that hands over nothing ends the loop with
    nil and leaves the buffer as it is. *)
Lemma readRange_loop_zero_read (fuel : nat) (remain : list byte)
    (plan : list read_step) (eager : bool) (buffer : list byte) (total : nat) :
  (total ≤ length buffer)%nat →
  ∃ r', readRange_loop (S fuel) (mkRangeReader remain (Deliver 0 :: plan) eager)
          buffer (Z.of_nat total) =
        (Some (Returned None), buffer, r', Z.of_nat total).
Proof.
  intros Htotal. simpl. rewrite decide_True by lia. rewrite Nat2Z.id.
  unfold Read, RangeReader_Read. simpl.
  destruct remain as [|b remain]; simpl; rewrite ?take_0;
    (rewrite store_fits by (simpl; lia)); simpl;
    rewrite drop_0, take_drop; [eauto|].
  unfold end_of_stream. rewrite bool_decide_false, andb_false_r by done.
  simpl. eauto.
Qed.

Section ReaderContract.
Context {R : Type} `{io_Reader R}.
Hypothesis contract : reader_contract R.

(** The invariant of the loop under the contract: [totalBytes] stays within
    the buffer, no slicing panics, and the buffer keeps its length. *)
Lemma readRange_loop_invariant (fuel : nat) (r : R) (buffer : list byte)
    (totalBytes : Z) :
  (0 ≤ totalBytes ≤ Z.of_nat (length buffer))%Z →
  let '(res, buffer', _, total') := readRange_loop fuel r buffer totalBytes in
  res ≠ Some Panicked
  ∧ length buffer' = length buffer
  ∧ (0 ≤ total' ≤ Z.of_nat (length buffer))%Z.
Proof.
  revert r buffer totalBytes.
  induction fuel as [|fuel IH]; intros r buffer totalBytes Htotal; simpl.
  { done. }
  rewrite decide_True by done.
  pose proof (contract r (length (drop (Z.to_nat totalBytes) buffer))) as Hn.
  destruct (Read r _) as [[[byteCount d] err] r']. simpl in Hn.
  set (buffer' := take (Z.to_nat totalBytes) buffer ++ store _ d).
  assert (length buffer' = length buffer) as Hlen.
  { unfold buffer'. rewrite length_app, length_store, length_take, length_drop.
    lia. }
  rewrite length_drop in Hn.
  destruct err as [e|].
  - by destruct (decide (e = io_EOF)).
  - destruct (decide (byteCount = 0%Z)); [done|].
    specialize (IH r' buffer' (totalBytes + byteCount)%Z).
    rewrite Hlen in IH. apply IH. lia.
Qed.

(** Under the contract the loop returns within [len(buffer) + 1] reads:
    every read that does not end it adds at least one byte. *)
Lemma readRange_loop_terminates (fuel : nat) (r : R) (buffer : list byte)
    (totalBytes : Z) :
  (0 ≤ totalBytes ≤ Z.of_nat (length buffer))%Z →
  (Z.of_nat (length buffer) - totalBytes < Z.of_nat fuel)%Z →
  (readRange_loop fuel r buffer totalBytes).1.1.1 ≠ None.
Proof.
  revert r buffer totalBytes.
  induction fuel as [|fuel IH]; intros r buffer totalBytes Htotal Hfuel; simpl.
  { lia. }
  rewrite decide_True by done.
  pose proof (contract r (length (drop (Z.to_nat totalBytes) buffer))) as Hn.
  destruct (Read r _) as [[[byteCount d] err] r']. simpl in Hn.
  set (buffer' := take (Z.to_nat totalBytes) buffer ++ store _ d).
  assert (length buffer' = length buffer) as Hlen.
  { unfold buffer'. rewrite length_app, length_store, length_take, length_drop.
    lia. }
  rewrite length_drop in Hn.
  destruct err as [e|].
  - by destruct (decide (e = io_EOF)).
  - destruct (decide (byteCount = 0%Z)); [done|].
    apply IH; rewrite Hlen; lia.
Qed.
End ReaderContract.

Lemma RangeReader_contract : reader_contract RangeReader.
Proof.
  intros [remain plan] n. unfold Read, RangeReader_Read. simpl.
  destruct plan as [|[k|e] plan]; simpl; [| |lia];
    destruct remain; simpl; rewrite ?length_take; simpl; lia.
Qed.

Lemma to_int64_small (z : Z) : (0 ≤ z < 2 ^ 63)%Z → to_int64 z = z.
Proof.
  intros Hz. unfold to_int64.
  rewrite Z.mod_small by lia. lia.
Qed.

(** With an empty buffer [Object] asks for the headers of the object only
    and the first read ends the loop. *)
Lemma Object_empty_buffer {backend_BlockMeta : Type} (env : Env backend_BlockMeta)
    (st : State) (blockID : UUID) (tenantID : string) (content : list byte)
    (start : Z) (fuel : nat) :
  objects st !! objectFileName blockID tenantID = Some content →
  reader_fault env (objectFileName blockID tenantID) = None →
  (0 ≤ start < 2 ^ 63)%Z →
  Object env (S fuel) st blockID tenantID start [] = (Some (Returned None), []).
Proof.
  intros Hobj Hr Hstart. unfold Object, readRange, NewRangeReader.
  rewrite to_int64_small by lia.
  rewrite decide_False by lia. by rewrite Hr, Hobj.
Qed.

Section ObjectFacts.
Context {backend_BlockMeta : Type}.
Variable env : Env backend_BlockMeta.
Variables (st : State) (blockID : UUID) (tenantID : string).
Variables (content : list byte) (start : Z) (buffer : list byte) (fuel : nat).

Hypothesis object_exists :
  objects st !! objectFileName blockID tenantID = Some content.
Hypothesis no_reader_fault :
  reader_fault env (objectFileName blockID tenantID) = None.
Hypothesis start_in_range : (0 ≤ start < Z.of_nat (length content))%Z.
Hypothesis start_int64 : (start < 2 ^ 63)%Z.

Abbreviation data := (range_data content start (length buffer)).
Abbreviation plan := (range_plan env (objectFileName blockID tenantID)).
Abbreviation eager := (range_eager env (objectFileName blockID tenantID)).

Lemma Object_loop :
  buffer ≠ [] →
  Object env fuel st blockID tenantID start buffer =
  let '(res, buffer', _, _) :=
    readRange_loop fuel (mkRangeReader data plan eager) buffer 0 in
  (res, buffer').
Proof.
  intros Hbuf. unfold Object, readRange, NewRangeReader.
  rewrite to_int64_small by lia.
  rewrite decide_False by lia.
  rewrite no_reader_fault, object_exists.
  rewrite decide_False by (destruct buffer; simpl; [done|lia]).
  rewrite decide_True by lia.
  by rewrite Nat2Z.id.
Qed.

Lemma Object_returns :
  (length buffer < fuel)%nat →
  (Object env fuel st blockID tenantID start buffer).1 ≠ None.
Proof.
  intros Hfuel. destruct (decide (buffer = [])) as [->|Hbuf].
  { destruct fuel as [|fuel']; [simpl in Hfuel; lia|].
    by rewrite (Object_empty_buffer env st blockID tenantID content start fuel')
      by (done || lia). }
  rewrite Object_loop by done.
  pose proof (readRange_loop_terminates RangeReader_contract fuel
                (mkRangeReader data plan eager) buffer 0) as Hterm.
  destruct (readRange_loop _ _ _ _) as [[[res buffer'] r'] total'].
  apply Hterm; lia.
Qed.

Lemma Object_steady :
  Forall (λ s, steady s = true) plan → (length buffer < fuel)%nat →
  Object env fuel st blockID tenantID start buffer =
  (Some (Returned None), data ++ drop (length data) buffer).
Proof.
  intros Hplan Hfuel. destruct (decide (buffer = [])) as [->|Hbuf].
  { destruct fuel as [|fuel']; [simpl in Hfuel; lia|].
    by rewrite (Object_empty_buffer env st blockID tenantID content start fuel')
      by (done || lia). }
  rewrite Object_loop by done.
  destruct (readRange_loop_steady fuel (mkRangeReader data plan eager) [] buffer)
    as (r' & total & Hr'); simpl; [done|lia|].
  cbn [app length rr_remain] in Hr'. change (Z.of_nat 0) with 0%Z in Hr'.
  rewrite Hr'.
  f_equal. f_equal.
  apply take_ge. unfold range_data. rewrite length_take. lia.
Qed.

Lemma Object_zero_read (pre rest : list read_step) :
  plan = pre ++ Deliver 0 :: rest →
  Forall (λ s, steady s = true) pre →
  (plan_bytes pre < length data)%nat → (length pre < fuel)%nat →
  Object env fuel st blockID tenantID start buffer =
  (Some (Returned None),
   take (plan_bytes pre) data ++ drop (plan_bytes pre) buffer).
Proof.
  intros Hplan Hpre Hfit Hfuel.
  assert (length data ≤ length buffer)%nat
    by (unfold range_data; rewrite length_take; lia).
  rewrite Object_loop by (intros ->; simpl in *; lia). rewrite Hplan.
  replace fuel with (length pre + S (fuel - S (length pre)))%nat by lia.
  pose proof (readRange_loop_prefix pre data (Deliver 0 :: rest) eager [] buffer
                (S (fuel - S (length pre))) Hpre) as Hrun.
  cbn [app length] in Hrun. change (Z.of_nat 0) with 0%Z in Hrun.
  rewrite Hrun by lia.
  destruct (readRange_loop_zero_read (fuel - S (length pre))
              (drop (plan_bytes pre) data) rest eager
              (take (plan_bytes pre) data ++ drop (plan_bytes pre) buffer)
              (length (take (plan_bytes pre) data))) as [r' Hr'].
  { rewrite length_app. lia. }
  by rewrite Hr'.
Qed.

(** C4: for an object that exists and a start inside it, the read loop of
    [Object] reads from the ranged stream into the free part of the buffer
    until the stream is at its end or hands over
    nothing; with the buffer full that is the next read, so the loop ends
    within [len(buffer) + 1] reads.  Short reads are retried: whatever the
    (positive) sizes of the chunks, the call returns nil with the bytes of
    the range stored in order, which is the full requested length when the
    object holds that many bytes from [start] on, and a partially filled
    buffer when the stream ends earlier.  A read of zero bytes ends the
    loop at once, with nil and the bytes stored so far. *)
Theorem Object_read_loop :
  (length buffer < fuel)%nat →
  (Object env fuel st blockID tenantID start buffer).1 ≠ None
  ∧ (Forall (λ s, steady s = true) plan →
       Object env fuel st blockID tenantID start buffer =
         (Some (Returned None), data ++ drop (length data) buffer)
       ∧ ((Z.of_nat (length buffer) ≤ Z.of_nat (length content) - start)%Z →
          (Object env fuel st blockID tenantID start buffer).2 = data
          ∧ length data = length buffer))
  ∧ (∀ pre rest,
       plan = pre ++ Deliver 0 :: rest →
       Forall (λ s, steady s = true) pre →
       (plan_bytes pre < length data)%nat →
       Object env fuel st blockID tenantID start buffer =
         (Some (Returned None),
          take (plan_bytes pre) data ++ drop (plan_bytes pre) buffer)).
Proof.
  intros Hfuel. split_and!.
  - by apply Object_returns.
  - intros Hplan. split; [by apply Object_steady|]. intros Hlen.
    assert (length data = length buffer) as Hdata
      by (unfold range_data; rewrite length_take, length_drop; lia).
    rewrite Object_steady by done. simpl.
    by rewrite Hdata, drop_all, app_nil_r.
  - intros pre rest Hplan Hpre Hfit. apply (Object_zero_read pre rest); try done.
    assert (length pre ≤ plan_bytes pre)%nat; [|unfold range_data in *;
      rewrite length_take in Hfit; lia].
    clear -Hpre. induction Hpre as [|[[|k]|] pre Hs _ IH]; try done.
    change (plan_bytes (Deliver (S k) :: pre)) with (S k + plan_bytes pre)%nat.
    simpl. lia.
Qed.
End ObjectFacts.

(** C9: as long as every read of the stream returns a count between zero and
    the length of the slice it was given, then in the loop of [readRange],
    after any number of iterations, [totalBytes] lies within the buffer, no
    slicing [buffer[totalBytes:]] has panicked, and the buffer has the length
    the caller gave it. *)
Theorem readRange_loop_in_bounds {R : Type} `{io_Reader R} (fuel : nat) (r : R)
    (buffer : list byte) :
  reader_contract R →
  let '(res, buffer', _, totalBytes) := readRange_loop fuel r buffer 0 in
  (0 ≤ totalBytes ≤ Z.of_nat (length buffer))%Z
  ∧ res ≠ Some Panicked
  ∧ length buffer' = length buffer.
Proof.
  intros contract.
  pose proof (readRange_loop_invariant contract fuel r buffer 0) as Hinv.
  destruct (readRange_loop fuel r buffer 0) as [[[res buffer'] r'] total'].
  destruct Hinv as (? & ? & ?); [lia|done].
Qed.

(** ** Writing, then reading *)

Section RoundTrip.
Context {backend_BlockMeta : Type}.
Variable env : Env backend_BlockMeta.
Variables (blockID : UUID) (tenantID : string) (meta : backend_BlockMeta).
Variables (bBloom bIndex : list byte) (objectFilePath : string).

Abbreviation Write__ := (Write env blockID tenantID meta bBloom bIndex objectFilePath).

Lemma readAll_healthy (st : State) (name : string) (content : list byte) :
  objects st !! name = Some content → reads_healthy env name →
  readAll env st name = (content, None).
Proof.
  intros Hobj (Hr & Hs & _). unfold readAll, NewReader, ioutil_ReadAll.
  by rewrite Hr, Hobj, Hs.
Qed.

(** What was written is what is read, when the bucket accepts the four
    uploads: after such a [Write] that returned nil, with the reads of the
    four keys healthy and a JSON codec that round-trips, [Bloom], [Index],
    [BlockMeta] and the full-range [Object] return exactly the bloom bytes,
    the index bytes, the meta record and the payload bytes (those of the
    source file) that were written. *)
Lemma Write_round_trip_accepted (st : State) (src : File) (buffer : list byte)
    (fuel : nat) :
  (Write__ st).1 = None →
  (∀ name, name ∈ block_keys blockID tenantID → upload_fault env name = None) →
  os_Open env objectFilePath = inl src →
  (∀ b, json_Marshal env meta = inl b → json_Unmarshal env b = inl meta) →
  reads_healthy env (bloomFileName blockID tenantID) →
  reads_healthy env (indexFileName blockID tenantID) →
  reads_healthy env (metaFileName blockID tenantID) →
  reads_healthy env (objectFileName blockID tenantID) →
  length buffer = length (f_data src) → (length buffer < fuel)%nat →
  let st' := (Write__ st).2 in
  Bloom env st' blockID tenantID = (bBloom, None)
  ∧ Index env st' blockID tenantID = (bIndex, None)
  ∧ BlockMeta env st' blockID tenantID = (Some meta, None)
  ∧ Object env fuel st' blockID tenantID 0 buffer
    = (Some (Returned None), f_data src).
Proof.
  intros Hok Hacc Hsrc Hjson Hbloom Hindex Hmeta Hdata Hlen Hfuel st'.
  destruct (Write_success env blockID tenantID meta bBloom bIndex
              objectFilePath st Hok)
    as (src' & bMeta & Hsrc' & _ & Hm & _ & Hobjs).
  assert (src' = src) as -> by congruence.
  destruct (keys_distinct blockID tenantID)
    as (Hbi & Hbd & Hbm & Hid & Him & Hdm).
  assert (objects st' !! bloomFileName blockID tenantID = Some bBloom
          ∧ objects st' !! indexFileName blockID tenantID = Some bIndex
          ∧ objects st' !! metaFileName blockID tenantID = Some bMeta
          ∧ objects st' !! objectFileName blockID tenantID = Some (f_data src))
    as (Hb & Hi & Hmt & Hd).
  { unfold st'. rewrite Hobjs. unfold closes.
    rewrite !Hacc by (unfold block_keys; rewrite !elem_of_cons; tauto).
    cbn. split_and!; by simplify_map_eq. }
  split_and!.
  - unfold Bloom. by apply readAll_healthy.
  - unfold Index. by apply readAll_healthy.
  - unfold BlockMeta. rewrite (readAll_healthy _ _ bMeta) by done.
    by rewrite (Hjson bMeta Hm).
  - destruct Hdata as (Hr & _ & Hplan).
    destruct (decide (f_data src = [])) as [Hempty|Hfull].
    { rewrite Hempty in *. apply nil_length_inv in Hlen as ->.
      destruct fuel as [|fuel']; [simpl in Hfuel; lia|].
      by apply (Object_empty_buffer env st' blockID tenantID []). }
    rewrite (Object_steady env st' blockID tenantID (f_data src) 0 buffer fuel)
      by (done || (destruct (f_data src); simpl; [done|lia]) || lia).
    unfold range_data. rewrite drop_0, Hlen, firstn_all. simpl.
    by rewrite <-Hlen, drop_all, app_nil_r.
Qed.
End RoundTrip.

(** ** Listing *)

Section Listing.
Context {backend_BlockMeta : Type}.
Variable env : Env backend_BlockMeta.

(** The loop of [Tenants] on an iterator that reaches the end of its
    listing: it returns after one more call of [Next] than there are
    entries, with one tenant for each entry. *)
Lemma Tenants_loop_Done (fuel : nat) (entries : list ObjectAttrs)
    (tenants : list string) (warning : option error) :
  (length entries < fuel)%nat →
  Tenants_loop fuel (mkIterator entries iterator_Done) tenants warning =
  Some (tenants ++ map (λ attrs, strings_TrimSuffix (Prefix attrs) "/") entries,
        warning).
Proof.
  revert entries tenants.
  induction fuel as [|fuel IH]; intros entries tenants Hfuel; [lia|].
  destruct entries as [|attrs entries]; simpl.
  - by rewrite app_nil_r.
  - simpl in Hfuel. rewrite IH by lia. by rewrite <-(assoc_L (++)).
Qed.

(** The loop has not returned while entries are left. *)
Lemma Tenants_loop_running (fuel : nat) (entries : list ObjectAttrs)
    (err : ext_error) (tenants : list string) (warning : option error) :
  (fuel ≤ length entries)%nat →
  Tenants_loop fuel (mkIterator entries err) tenants warning = None.
Proof.
  revert entries tenants.
  induction fuel as [|fuel IH]; intros entries tenants Hfuel; [done|].
  destruct entries as [|attrs entries]; simpl in *; [lia|].
  apply IH. lia.
Qed.

(** The loop of [Tenants] on an iterator whose listing breaks off: [Next]
    keeps returning the error, and the loop goes round for ever. *)
Lemma Tenants_loop_broken (fuel : nat) (entries : list ObjectAttrs)
    (err : ext_error) (tenants : list string) (warning : option error) :
  err ≠ iterator_Done →
  Tenants_loop fuel (mkIterator entries err) tenants warning = None.
Proof.
  intros Herr. revert entries tenants warning.
  induction fuel as [|fuel IH]; intros entries tenants warning; [done|].
  destruct entries as [|attrs entries]; simpl.
  - rewrite decide_False by done. apply IH.
  - apply IH.
Qed.

Lemma Blocks_loop_Done (fuel : nat) (tenantID : string)
    (entries : list ObjectAttrs) (blocks : list UUID) (warning : option error) :
  (length entries < fuel)%nat →
  let results := map (Blocks_entry env tenantID) entries in
  Blocks_loop env fuel tenantID (mkIterator entries iterator_Done) blocks warning =
  Some (blocks ++ lefts results, from_option Some warning (last (rights results))).
Proof.
  revert entries blocks warning.
  induction fuel as [|fuel IH]; intros entries blocks warning Hfuel; [lia|].
  destruct entries as [|attrs entries]; simpl.
  - by rewrite app_nil_r.
  - simpl in Hfuel. fold (idString_of tenantID attrs).
    unfold lefts, rights, Blocks_entry. simpl.
    destruct (uuid_Parse env (idString_of tenantID attrs)) as [blockID|cause];
      rewrite IH by lia; simpl.
    + by rewrite <-(assoc_L (++)).
    + f_equal. f_equal. rewrite last_cons. by destruct (last _).
Qed.

Lemma Blocks_loop_running (fuel : nat) (tenantID : string)
    (entries : list ObjectAttrs) (err : ext_error) (blocks : list UUID)
    (warning : option error) :
  (fuel ≤ length entries)%nat →
  Blocks_loop env fuel tenantID (mkIterator entries err) blocks warning = None.
Proof.
  revert entries blocks warning.
  induction fuel as [|fuel IH]; intros entries blocks warning Hfuel; [done|].
  destruct entries as [|attrs entries]; simpl in *; [lia|].
  destruct (uuid_Parse env _); apply IH; lia.
Qed.

Lemma Blocks_loop_broken (fuel : nat) (tenantID : string)
    (entries : list ObjectAttrs) (err : ext_error) (blocks : list UUID)
    (warning : option error) :
  err ≠ iterator_Done →
  Blocks_loop env fuel tenantID (mkIterator entries err) blocks warning = None.
Proof.
  intros Herr. revert entries blocks warning.
  induction fuel as [|fuel IH]; intros entries blocks warning; [done|].
  destruct entries as [|attrs entries]; simpl.
  - rewrite decide_False by done. apply IH.
  - destruct (uuid_Parse env _); apply IH.
Qed.

Lemma rights_app {A B : Type} (l1 l2 : list (A + B)) :
  rights (l1 ++ l2) = rights l1 ++ rights l2.
Proof. apply omap_app. Qed.

Lemma rights_inr {A B : Type} (b : B) (l : list (A + B)) :
  rights (inr b :: l) = b :: rights l.
Proof. reflexivity. Qed.

Lemma lefts_Blocks_entry (tenantID : string) (entries : list ObjectAttrs) :
  lefts (map (Blocks_entry env tenantID) entries)
  = parsed_ids env tenantID entries.
Proof.
  unfold lefts, parsed_ids, Blocks_entry.
  induction entries as [|attrs entries IH]; [done|].
  simpl. destruct (uuid_Parse env _); simpl; [f_equal|]; exact IH.
Qed.

Lemma rights_Blocks_entry_parsed (tenantID : string) (entries : list ObjectAttrs) :
  Forall (λ attrs, parses env tenantID attrs = true) entries →
  rights (map (Blocks_entry env tenantID) entries) = [].
Proof.
  unfold rights, parses, Blocks_entry.
  induction 1 as [|attrs entries Hp _ IH]; [done|].
  simpl. destruct (uuid_Parse env _); [exact IH|done].
Qed.

Lemma length_parsed_ids (tenantID : string) (entries : list ObjectAttrs) :
  length (parsed_ids env tenantID entries)
  = length (filter (λ attrs, parses env tenantID attrs = true) entries).
Proof.
  unfold parsed_ids, parses. induction entries as [|attrs entries IH]; [done|].
  rewrite filter_cons. simpl.
  destruct (uuid_Parse env _); simpl; [f_equal|]; exact IH.
Qed.

(** The last entry of a listing that does not parse. *)
Lemma last_unparsed (tenantID : string) (entries : list ObjectAttrs) :
  Exists (λ attrs, parses env tenantID attrs = false) entries →
  ∃ before bad after,
    entries = before ++ bad :: after
    ∧ parses env tenantID bad = false
    ∧ Forall (λ attrs, parses env tenantID attrs = true) after.
Proof.
  induction entries as [|attrs entries IH]; intros Hex.
  { by apply Exists_nil in Hex. }
  destruct (decide (Exists (λ attrs, parses env tenantID attrs = false) entries))
    as [Hlater|Hnone].
  - destruct (IH Hlater) as (before & bad & after & -> & ? & ?).
    by exists (attrs :: before), bad, after.
  - apply Exists_cons in Hex as [Hbad|?]; [|done].
    exists [], attrs, entries. split_and!; [done..|].
    apply Forall_forall. intros a Ha.
    destruct (parses env tenantID a) eqn:Hp; [done|].
    destruct Hnone. apply Exists_exists. eauto.
Qed.

Lemma Contains_ErrFailedParse (idString : string) (cause : ext_error) :
  Contains (Error (ErrFailedParse idString cause)) idString.
Proof. by exists "failed parse on blockID ", (": " +:+ ext_Error cause). Qed.

(** C5: for a listing under a tenant prefix whose entries are all read, of
    which N parse as block ids and at least one does not, [Blocks] returns
    exactly the N parsed ids, in the order of the listing and including
    those listed after a parse failure, together with a warning that is not
    nil: the parse failure of the last entry that did not parse, whose
    message includes the string that failed to parse.  The loop returns
    after one more call of [Next] than there are entries. *)
Theorem Blocks_partial_listing (tenantID : string) (entries : list ObjectAttrs)
    (N : nat) (fuel : nat) :
  listing env (mkQuery (tenantID +:+ "/") "/" false)
  = mkIterator entries iterator_Done →
  length (filter (λ attrs, parses env tenantID attrs = true) entries) = N →
  Exists (λ attrs, parses env tenantID attrs = false) entries →
  (length entries < fuel)%nat →
  ∃ before bad after cause,
    entries = before ++ bad :: after
    ∧ Forall (λ attrs, parses env tenantID attrs = true) after
    ∧ uuid_Parse env (idString_of tenantID bad) = inr cause
    ∧ Blocks env fuel tenantID =
        Some (parsed_ids env tenantID entries,
              Some (ErrFailedParse (idString_of tenantID bad) cause))
    ∧ length (parsed_ids env tenantID entries) = N
    ∧ Contains (Error (ErrFailedParse (idString_of tenantID bad) cause))
               (idString_of tenantID bad).
Proof.
  intros Hlist HN (before & bad & after & Hsplit & Hbad & Hafter)%last_unparsed
    Hfuel.
  unfold parses in Hbad.
  destruct (uuid_Parse env (idString_of tenantID bad)) as [|cause] eqn:Hparse;
    [done|].
  exists before, bad, after, cause.
  split_and!; try done.
  - unfold Blocks. rewrite Hlist, Blocks_loop_Done by done. cbn [app].
    rewrite lefts_Blocks_entry. f_equal. f_equal.
    assert (Blocks_entry env tenantID bad
            = inr (ErrFailedParse (idString_of tenantID bad) cause)) as Hentry
      by (unfold Blocks_entry; by rewrite Hparse).
    rewrite Hsplit, !map_app, !map_cons, Hentry, rights_app, rights_inr.
    rewrite (rights_Blocks_entry_parsed tenantID after) by done.
    by rewrite last_snoc.
  - by rewrite length_parsed_ids.
  - apply Contains_ErrFailedParse.
Qed.
End Listing.

(** ** The properties at work in the small world *)

(** C2: in a run of [Write] without any fault, bytes are handed to the
    writers in the order bloom, index, data, meta.json, but the objects come
    to exist in the order bloom, index, meta.json, data: the writer of the
    payload is closed by the deferred [w.Close()], after [meta.json] was
    written and closed. *)
Theorem Write_creates_meta_before_payload :
  let run := Write ok_env uuid1 "t1" [x7b; x7d] [x0a] [x0b; x0c] "/tmp/blk" st0 in
  run.1 = None
  ∧ uploads (trace run.2) =
      ["t1/deadbeef-0001-0203-0405-060708090aff/bloom";
       "t1/deadbeef-0001-0203-0405-060708090aff/index";
       "t1/deadbeef-0001-0203-0405-060708090aff/data";
       "t1/deadbeef-0001-0203-0405-060708090aff/meta.json"]
  ∧ finalized (trace run.2) =
      ["t1/deadbeef-0001-0203-0405-060708090aff/bloom";
       "t1/deadbeef-0001-0203-0405-060708090aff/index";
       "t1/deadbeef-0001-0203-0405-060708090aff/meta.json";
       "t1/deadbeef-0001-0203-0405-060708090aff/data"].
Proof. vm_compute. done. Qed.

(** C1, as stated, fails: with the source file missing, the upload of the
    bloom rejected and a bloom that does not fit into the chunk buffer of
    the writer, the write of the bloom returns the rejection and [Write]
    returns that error, not the source-missing one. *)
Lemma Write_source_missing_bloom_down :
  let run := Write missing_bloom_down_env uuid1 "t1" [x7b; x7d] big_bloom [x0b; x0c]
               "/tmp/blk" st0 in
  os_IsNotExist (os_Stat missing_bloom_down_env "/tmp/blk") = true
  ∧ (googleapi_ChunkSize (ChunkBufferSize missing_bloom_down_env)
     < N.of_nat (length big_bloom))%N
  ∧ run.1 = Some (Ext err503)
  ∧ run.1 ≠ Some (ErrObjectFileNotFound "/tmp/blk").
Proof.
  assert (N.of_nat (length big_bloom) = 262145%N) as Hlen
    by (unfold big_bloom; by rewrite length_replicate, N2Nat.id).
  assert (reported missing_bloom_down_env
            (writer missing_bloom_down_env (bloomFileName uuid1 "t1")) big_bloom
          = Some err503) as Hrep.
  { unfold reported. cbn [w_buf writer app]. rewrite Hlen. reflexivity. }
  assert (step_error missing_bloom_down_env uuid1 "t1" [x7b; x7d] big_bloom
            [x0b; x0c] "/tmp/blk" StepBloom = Some (Ext err503)) as Hstep.
  { cbn [step_error]. by rewrite Hrep. }
  cbv zeta. rewrite Write_run. cbn [fst].
  rewrite (stop_step_first _ _ _ _ _ _ _ StepBloom (Ext err503) Hstep);
    [|intros [] Hlt; cbn [step_index] in Hlt; lia].
  rewrite Hstep, Hlen.
  split_and!; [reflexivity|reflexivity|reflexivity|discriminate].
Qed.

Lemma Write_source_missing_witness :
  os_IsNotExist (os_Stat missing_env "/tmp/blk") = true
  ∧ (Write missing_env uuid1 "t1" [x7b; x7d] [x0a] [x0b; x0c] "/tmp/blk" st0).1
    = Some (ErrObjectFileNotFound "/tmp/blk").
Proof.
  split; [reflexivity|].
  apply (Write_source_missing missing_env uuid1 "t1" [x7b; x7d] [x0a] [x0b; x0c]
           "/tmp/blk" st0); reflexivity.
Defined.

(** C3: the bucket rejects the upload of [meta.json].  The record fits into
    the chunk buffer of the writer, so that the rejection comes back from
    [w.Close()], whose result [writeAll] drops: [Write] returns nil, the
    block has no [meta.json], and [BlockMeta] does not return the record
    that was written. *)
Theorem Write_nil_without_meta :
  let run := Write meta_down_env uuid1 "t1" [x7b; x7d] [x0a] [x0b; x0c] "/tmp/blk" st0 in
  run.1 = None
  ∧ objects run.2 !! metaFileName uuid1 "t1" = None
  ∧ BlockMeta meta_down_env run.2 uuid1 "t1"
    = (None, Some (Ext storage_ErrObjectNotExist))
  ∧ Bloom meta_down_env run.2 uuid1 "t1" = ([x0a], None)
  ∧ Index meta_down_env run.2 uuid1 "t1" = ([x0b; x0c], None)
  ∧ Object meta_down_env 6 run.2 uuid1 "t1" 0 (repeat x00 5)
    = (Some (Returned None), [x01; x02; x03; x04; x05]).
Proof. vm_compute. done. Qed.

Lemma Object_read_loop_witness :
  Object ok_env 6 st_payload uuid1 "t1" 1 (repeat x00 3)
  = (Some (Returned None), [x02; x03; x04]).
Proof.
  apply (Object_read_loop ok_env st_payload uuid1 "t1"
           [x01; x02; x03; x04; x05] 1 (repeat x00 3) 6).
  - reflexivity.
  - reflexivity.
  - simpl. lia.
  - lia.
  - simpl. lia.
  - repeat constructor.
Defined.

Lemma Blocks_partial_listing_witness :
  ∃ before bad after cause,
    listed = before ++ bad :: after
    ∧ Forall (λ attrs, parses listing_env "t1" attrs = true) after
    ∧ uuid_Parse listing_env (idString_of "t1" bad) = inr cause
    ∧ Blocks listing_env 4 "t1" =
        Some (parsed_ids listing_env "t1" listed,
              Some (ErrFailedParse (idString_of "t1" bad) cause))
    ∧ length (parsed_ids listing_env "t1" listed) = 2%nat
    ∧ Contains (Error (ErrFailedParse (idString_of "t1" bad) cause))
               (idString_of "t1" bad).
Proof.
  apply (Blocks_partial_listing listing_env "t1" listed 2 4).
  - reflexivity.
  - reflexivity.
  - apply Exists_cons_tl, Exists_cons_hd. reflexivity.
  - simpl. lia.
Defined.

(** C6: when a read of the listing fails, [Next] returns the same error at
    every later call and never [iterator.Done], so that the loops of
    [Tenants] and [Blocks], which go on to the next call after a failed
    read, do not end: whatever the number of iterations, neither call has
    returned a list or a warning. *)
Theorem listing_read_failure_never_returns (fuel : nat) :
  iterator_Next (listing flaky_listing_env (mkQuery "" "/" false))
  = (inl (dir_entry "t1"), mkIterator [] err503)
  ∧ iterator_Next (mkIterator [] err503) = (inr err503, mkIterator [] err503)
  ∧ Tenants flaky_listing_env fuel = None
  ∧ Blocks flaky_listing_env fuel "t1" = None.
Proof.
  split_and!; [reflexivity|reflexivity| |].
  - apply (Tenants_loop_broken fuel [dir_entry "t1"] err503). discriminate.
  - apply (Blocks_loop_broken flaky_listing_env fuel "t1" [dir_entry "t1"] err503).
    discriminate.
Qed.

(** C7: the bucket rejects the upload of the index.  The index fits into
    the chunk buffer of the writer, so that its write returns nil and the
    rejection comes back from [w.Close()], whose result [writeAll] drops:
    the step has failed, but [Write] does not abort and returns no error;
    the later steps are executed, [meta.json] is written, and the block is
    left without its index. *)
Theorem Write_ignores_rejected_upload :
  let index := "t1/deadbeef-0001-0203-0405-060708090aff/index" in
  let run := Write index_down_env uuid1 "t1" [x7b; x7d] [x0a] [x0b; x0c] "/tmp/blk" st0 in
  upload_fault index_down_env index = Some err503
  ∧ (Writer_Close index_down_env
       (Writer_Write index_down_env (writer index_down_env index) [x0b; x0c] st0).1.2
       st0).1 = Some err503
  ∧ run.1 = None
  ∧ trace run.2 =
      [CallWrite "t1/deadbeef-0001-0203-0405-060708090aff/bloom" [x0a];
       CallClose "t1/deadbeef-0001-0203-0405-060708090aff/bloom" (Some [x0a]);
       CallWrite index [x0b; x0c];
       CallClose index None;
       CallStat "/tmp/blk"; CallOpen "/tmp/blk";
       CallCopy "t1/deadbeef-0001-0203-0405-060708090aff/data" "/tmp/blk";
       CallWrite "t1/deadbeef-0001-0203-0405-060708090aff/meta.json" [x7b; x7d];
       CallClose "t1/deadbeef-0001-0203-0405-060708090aff/meta.json"
         (Some [x7b; x7d]);
       CallClose "t1/deadbeef-0001-0203-0405-060708090aff/data"
         (Some [x01; x02; x03; x04; x05]);
       CallFileClose "/tmp/blk"]
  ∧ objects run.2 !! index = None
  ∧ objects run.2 !! "t1/deadbeef-0001-0203-0405-060708090aff/meta.json"
    = Some [x7b; x7d].
Proof. vm_compute. done. Qed.

Lemma readRange_loop_in_bounds_witness :
  let '(res, buffer', _, totalBytes) :=
    readRange_loop 4 (mkRangeReader [x01; x02; x03] [Deliver 2] true) [x00; x00] 0 in
  (0 ≤ totalBytes ≤ 2)%Z ∧ res ≠ Some Panicked ∧ length buffer' = 2%nat.
Proof.
  apply (readRange_loop_in_bounds 4 (mkRangeReader [x01; x02; x03] [Deliver 2] true)
           [x00; x00] RangeReader_contract).
Defined.

Lemma Write_source_check_witness :
  os_IsNotExist (os_Stat eacces_env "/tmp/blk") = false
  ∧ (Write eacces_env uuid1 "t1" [x7b; x7d] [x0a] [x0b; x0c] "/tmp/blk" st0).1
    = Some (Ext (os_PathError "open" "/tmp/blk" EACCES)).
Proof.
  split; [reflexivity|].
  apply (Write_source_check eacces_env uuid1 "t1" [x7b; x7d] [x0a] [x0b; x0c]
           "/tmp/blk" st0); reflexivity.
Defined.

(** * Further properties *)

(** ** [Write] and the bucket *)

Lemma written_snoc (calls : list call) (c : call) (name : string) :
  written (calls ++ [c]) name =
  match c with
  | CallClose n (Some b) => if decide (n = name) then Some b else written calls name
  | _ => written calls name
  end.
Proof.
  unfold written. rewrite omap_app.
  destruct c as [| |n [b|]| | |]; simpl; rewrite ?app_nil_r; try done.
  destruct (decide (n = name)); simpl; [by rewrite last_snoc|by rewrite app_nil_r].
Qed.

(** The bucket after a log holds, under each name, what the log wrote there
    last, and what it held before under the names the log did not write. *)
Lemma replay_lookup (calls : list call) (objs : gmap string (list byte))
    (name : string) :
  replay calls objs !! name =
  match written calls name with
  | Some b => Some b
  | None => objs !! name
  end.
Proof.
  induction calls as [|c calls IH] using rev_ind; [done|].
  unfold replay in *. rewrite fold_left_app, written_snoc. simpl.
  destruct c as [| |n [b|]| | |]; try done.
  destruct (decide (n = name)) as [->|]; [by rewrite lookup_insert_eq|].
  by rewrite lookup_insert_ne.
Qed.

Lemma written_None (calls : list call) (name : string) :
  (∀ b, CallClose name (Some b) ∉ calls) → written calls name = None.
Proof.
  induction calls as [|c calls IH] using rev_ind; [done|].
  intros Hnot. rewrite written_snoc.
  assert (written calls name = None) as ->.
  { apply IH. intros b Hb. apply (Hnot b), elem_of_app. by left. }
  destruct c as [| |n [b|]| | |]; try done.
  destruct (decide (n = name)) as [->|]; [|done].
  destruct (Hnot b). apply elem_of_app. right. by apply list_elem_of_singleton.
Qed.

Section WriteBucket.
Context {backend_BlockMeta : Type}.
Variable env : Env backend_BlockMeta.
Variables (blockID : UUID) (tenantID : string) (meta : backend_BlockMeta).
Variables (bBloom bIndex : list byte) (objectFilePath : string).

Abbreviation Write' := (Write env blockID tenantID meta bBloom bIndex objectFilePath).
Abbreviation step_error' := (step_error env blockID tenantID meta bBloom bIndex objectFilePath).
Abbreviation performed' := (performed env blockID tenantID meta bBloom bIndex objectFilePath).
Abbreviation stop_step' := (stop_step env blockID tenantID meta bBloom bIndex objectFilePath).

(** A close in a run of [Write] is one of the four keys of the block. *)
Lemma performed_closes (s : step) (n : string) (b : option (list byte)) :
  CallClose n b ∈ performed' s → n ∈ block_keys blockID tenantID.
Proof.
  unfold performed, step_calls, step_deferred, closes, block_keys.
  destruct (os_Open env objectFilePath), (json_Marshal env meta), s; simpl;
    rewrite ?elem_of_cons, ?elem_of_nil;
    intros Hc; repeat (destruct Hc as [Hc|Hc]); try done;
    injection Hc as -> _; tauto.
Qed.

Lemma Write_lookup (st : State) (name : string) :
  objects (Write' st).2 !! name =
  match written (performed' stop_step') name with
  | Some b => Some b
  | None => objects st !! name
  end.
Proof. rewrite Write_run. apply replay_lookup. Qed.

(** A run that ends with an error has not created [meta.json]. *)
Lemma written_meta_None (s : step) (e : error) :
  step_error' s = Some e →
  written (performed' s) (metaFileName blockID tenantID) = None.
Proof.
  intros He. apply written_None. intros b.
  destruct (keys_distinct blockID tenantID)
    as (Hbi & Hbd & Hbm & Hid & Him & Hdm).
  revert He.
  unfold performed, step_calls, step_deferred, closes, step_error.
  destruct (os_Open env objectFilePath), (json_Marshal env meta) as [bMeta|], s;
    simpl; try done; intros He;
    try (apply fmap_Some in He as (e' & He%reported_Some & _);
         cbn in He; rewrite He);
    repeat (apply not_elem_of_cons; split; [congruence|]);
    apply not_elem_of_nil.
Qed.

Lemma finalized_written (calls : list call) (name : string) :
  name ∈ finalized calls → is_Some (written calls name).
Proof.
  induction calls as [|c calls IH] using rev_ind; [by intros ?%elem_of_nil|].
  unfold finalized in *. rewrite omap_app, elem_of_app, written_snoc.
  destruct c as [| |n [b|]| | |]; simpl; rewrite ?elem_of_nil; try tauto.
  rewrite list_elem_of_singleton.
  destruct (decide (n = name)); [eauto|]. intros [?|?]; [auto|congruence].
Qed.

Lemma step_error_all_None :
  reported env (writer env (bloomFileName blockID tenantID)) bBloom = None →
  reported env (writer env (indexFileName blockID tenantID)) bIndex = None →
  os_IsNotExist (os_Stat env objectFilePath) = false →
  (∃ src, os_Open env objectFilePath = inl src ∧ f_err src = None
     ∧ reported env (writer env (objectFileName blockID tenantID)) (f_data src)
       = None) →
  (∃ bMeta, json_Marshal env meta = inl bMeta
     ∧ reported env (writer env (metaFileName blockID tenantID)) bMeta = None) →
  ∀ s, step_error' s = None.
Proof.
  intros Hb Hi Hstat (src & Hsrc & Hf & Hd) (bMeta & Hm & Hmt) s.
  destruct s; simpl; by rewrite ?Hb, ?Hi, ?Hstat, ?Hsrc, ?Hd, ?Hf, ?Hm, ?Hmt.
Qed.

(** X1: [Write] returns nil exactly when none of its calls returns an
    error: the source file is there, opens and is read to its end, the
    record marshals, and no write or copy reports a rejected upload.  A
    rejection is reported only for bytes that do not fit into the chunk
    buffer of the writer, so that a nil result does not tell that the
    bucket accepted the uploads. *)
Theorem Write_nil_iff (st : State) :
  (Write' st).1 = None ↔
  reported env (writer env (bloomFileName blockID tenantID)) bBloom = None
  ∧ reported env (writer env (indexFileName blockID tenantID)) bIndex = None
  ∧ os_IsNotExist (os_Stat env objectFilePath) = false
  ∧ (∃ src, os_Open env objectFilePath = inl src ∧ f_err src = None
       ∧ reported env (writer env (objectFileName blockID tenantID)) (f_data src)
         = None)
  ∧ (∃ bMeta, json_Marshal env meta = inl bMeta
       ∧ reported env (writer env (metaFileName blockID tenantID)) bMeta = None).
Proof.
  rewrite Write_run. cbn [fst]. split.
  - intros Hok.
    pose proof (stop_step_error_None env blockID tenantID meta bBloom bIndex
                  objectFilePath Hok) as Hall.
    pose proof (step_error_None_inv _ _ _ _ _ _ _ _ (Hall StepBloom)) as Hb.
    pose proof (step_error_None_inv _ _ _ _ _ _ _ _ (Hall StepIndex)) as Hi.
    pose proof (step_error_None_inv _ _ _ _ _ _ _ _ (Hall StepSourceCheck)) as Hs.
    pose proof (step_error_None_inv _ _ _ _ _ _ _ _ (Hall StepOpen)) as [src Hsrc].
    pose proof (step_error_None_inv _ _ _ _ _ _ _ _ (Hall StepCopy) src Hsrc)
      as [Hd Hf].
    pose proof (step_error_None_inv _ _ _ _ _ _ _ _ (Hall StepMarshal))
      as [bMeta Hm].
    pose proof (step_error_None_inv _ _ _ _ _ _ _ _ (Hall StepMeta) bMeta Hm)
      as Hmt.
    cbn in Hb, Hi, Hs. split_and!; eauto.
  - intros (Hb & Hi & Hs & Hsrc & Hm).
    by apply step_error_all_None.
Qed.

(** X2: a [Write] that returns an error has not created [meta.json]: no
    successful close of its writer is among the calls made, and the bucket
    holds under the meta key what it held before, whichever step failed. *)
Theorem Write_error_keeps_meta (st : State) (e : error) :
  (Write' st).1 = Some e →
  objects (Write' st).2 !! metaFileName blockID tenantID
  = objects st !! metaFileName blockID tenantID
  ∧ ∃ calls, trace (Write' st).2 = trace st ++ calls
      ∧ metaFileName blockID tenantID ∉ finalized calls.
Proof.
  intros He. rewrite Write_lookup. rewrite Write_run in *.
  cbn [fst snd trace] in *.
  pose proof (written_meta_None _ _ He) as Hw. rewrite Hw.
  split; [done|]. eexists. split; [done|].
  intros [b Hb]%finalized_written. congruence.
Qed.

(** X3: [Write] touches no object but the four of its block: the bucket
    holds under every other name what it held before, whether the call
    returns nil or an error. *)
Theorem Write_frame (st : State) (name : string) :
  name ∉ block_keys blockID tenantID →
  objects (Write' st).2 !! name = objects st !! name.
Proof.
  intros Hname. rewrite Write_lookup, written_None; [done|].
  intros b Hb%performed_closes. done.
Qed.

(** X4: the result of [Write] does not depend on what the bucket holds or
    on the calls made before: it is the same from any two states.  And
    writing the same block a second time leaves the bucket as the first
    call left it: objects are replaced, never appended to. *)
Theorem Write_again (st st' : State) :
  (Write' st).1 = (Write' st').1
  ∧ objects (Write' (Write' st).2).2 = objects (Write' st).2.
Proof.
  split; [by rewrite !Write_run|].
  apply map_eq. intros name. rewrite !Write_lookup.
  by destruct (written _ name).
Qed.

(** X5: when the source file breaks off while it is copied, [Write] returns
    the read error, and the deferred close of the payload writer still
    completes the upload: the payload object is created from the bytes read
    before the error, while [meta.json] is not. *)
Theorem Write_torn_source (st : State) (src : File) (e : ext_error) :
  upload_fault env (bloomFileName blockID tenantID) = None →
  upload_fault env (indexFileName blockID tenantID) = None →
  os_IsNotExist (os_Stat env objectFilePath) = false →
  os_Open env objectFilePath = inl src →
  upload_fault env (objectFileName blockID tenantID) = None →
  f_err src = Some e →
  (Write' st).1 = Some (Ext e)
  ∧ objects (Write' st).2 !! objectFileName blockID tenantID = Some (f_data src)
  ∧ objects (Write' st).2 !! metaFileName blockID tenantID
    = objects st !! metaFileName blockID tenantID.
Proof.
  intros Hb Hi Hstat Hsrc Hd Hf.
  destruct (keys_distinct blockID tenantID)
    as (Hbi & Hbd & Hbm & Hid & Him & Hdm).
  pose proof (reported_accepted env (writer env (bloomFileName blockID tenantID))
                bBloom Hb) as Hrb.
  pose proof (reported_accepted env (writer env (indexFileName blockID tenantID))
                bIndex Hi) as Hri.
  pose proof (reported_accepted env (writer env (objectFileName blockID tenantID))
                (f_data src) Hd) as Hrd.
  assert (stop_step' = StepCopy) as Hstop.
  { apply (stop_step_first _ _ _ _ _ _ _ StepCopy (Ext e)).
    - simpl. by rewrite Hsrc, Hrd, Hf.
    - intros [] Hlt; simpl in *; try lia; by rewrite ?Hrb, ?Hri, ?Hstat, ?Hsrc. }
  rewrite Write_run, Hstop. cbn [fst snd objects].
  split; [simpl; by rewrite Hsrc, Hrd, Hf|].
  unfold performed, step_calls, step_deferred, closes. cbn.
  rewrite Hsrc, Hb, Hi, Hd. cbn.
  split; by simplify_map_eq.
Qed.

End WriteBucket.

Lemma Write_error_keeps_meta_witness :
  (Write eacces_env uuid1 "t1" [x7b; x7d] [x0a] [x0b; x0c] "/tmp/blk" st0).1
  = Some (Ext (os_PathError "open" "/tmp/blk" EACCES))
  ∧ objects (Write eacces_env uuid1 "t1" [x7b; x7d] [x0a] [x0b; x0c] "/tmp/blk" st0).2
      !! metaFileName uuid1 "t1" = None.
Proof.
  assert ((Write eacces_env uuid1 "t1" [x7b; x7d] [x0a] [x0b; x0c] "/tmp/blk" st0).1
          = Some (Ext (os_PathError "open" "/tmp/blk" EACCES))) as He
    by (vm_compute; reflexivity).
  split; [exact He|].
  destruct (Write_error_keeps_meta eacces_env uuid1 "t1" [x7b; x7d] [x0a]
              [x0b; x0c] "/tmp/blk" st0 _ He) as [Hkeep _].
  rewrite Hkeep. reflexivity.
Defined.

Lemma Write_frame_witness :
  objects (Write ok_env uuid2 "t1" [x7b; x7d] [x0a] [x0b; x0c] "/tmp/blk" st_payload).2
    !! objectFileName uuid1 "t1" = Some [x01; x02; x03; x04; x05].
Proof.
  rewrite (Write_frame ok_env uuid2 "t1" [x7b; x7d] [x0a] [x0b; x0c] "/tmp/blk"
             st_payload (objectFileName uuid1 "t1")).
  - reflexivity.
  - vm_compute. intros H. repeat (apply elem_of_cons in H as [H|H]; [discriminate|]).
    by apply elem_of_nil in H.
Defined.

Lemma Write_torn_source_witness :
  (Write torn_env uuid1 "t1" [x7b; x7d] [x0a] [x0b; x0c] "/tmp/blk" st0).1
  = Some (Ext (os_PathError "read" "/tmp/blk" EIO))
  ∧ objects (Write torn_env uuid1 "t1" [x7b; x7d] [x0a] [x0b; x0c] "/tmp/blk" st0).2
      !! objectFileName uuid1 "t1" = Some [x01; x02]
  ∧ objects (Write torn_env uuid1 "t1" [x7b; x7d] [x0a] [x0b; x0c] "/tmp/blk" st0).2
      !! metaFileName uuid1 "t1" = objects st0 !! metaFileName uuid1 "t1".
Proof.
  apply (Write_torn_source torn_env uuid1 "t1" [x7b; x7d] [x0a] [x0b; x0c]
           "/tmp/blk" st0 torn_file (os_PathError "read" "/tmp/blk" EIO));
    reflexivity.
Defined.

(** ** Reading what the bucket holds *)

Section ReadFacts.
Context {backend_BlockMeta : Type}.
Variable env : Env backend_BlockMeta.

Lemma readAll_missing (st : State) (name : string) :
  objects st !! name = None → reader_fault env name = None →
  readAll env st name = ([], Some (Ext storage_ErrObjectNotExist)).
Proof. intros Hobj Hr. unfold readAll, NewReader. by rewrite Hr, Hobj. Qed.

(** X6: [readAll] returns nil exactly when the object exists and neither
    opening nor streaming it fails; the bytes returned are then the whole
    content of the object. *)
Theorem readAll_nil_iff (st : State) (name : string) (bytes : list byte) :
  readAll env st name = (bytes, None) ↔
  reader_fault env name = None ∧ stream_fault env name = None
  ∧ objects st !! name = Some bytes.
Proof.
  unfold readAll, NewReader, ioutil_ReadAll.
  destruct (reader_fault env name) as [e|] eqn:Hr.
  { split; [done|]. by intros (? & _). }
  destruct (objects st !! name) as [content|] eqn:Hobj.
  2: { split; [done|]. by intros (_ & _ & ?). }
  destruct (stream_fault env name) as [[n e]|] eqn:Hs; simpl.
  { split; [done|]. by intros (_ & ? & _). }
  split; [by intros [= ->]|]. by intros (_ & _ & [= ->]).
Qed.

(** X7: reading a block of which the bucket holds nothing: [Bloom],
    [Index] and [BlockMeta] return the bucket's object-not-exist error,
    without bytes or record, and so does [Object] for every start below
    2^63, leaving the caller's buffer as it was.  (A start from 2^63 on
    becomes a negative offset, which is refused before the bucket is
    asked.) *)
Theorem read_missing_block (st : State) (blockID : UUID) (tenantID : string)
    (start : Z) (buffer : list byte) (fuel : nat) :
  (∀ name, name ∈ block_keys blockID tenantID →
     objects st !! name = None ∧ reader_fault env name = None) →
  Bloom env st blockID tenantID = ([], Some (Ext storage_ErrObjectNotExist))
  ∧ Index env st blockID tenantID = ([], Some (Ext storage_ErrObjectNotExist))
  ∧ BlockMeta env st blockID tenantID
    = (None, Some (Ext storage_ErrObjectNotExist))
  ∧ ((0 ≤ start < 2 ^ 63)%Z →
     Object env fuel st blockID tenantID start buffer
     = (Some (Returned (Some (Ext storage_ErrObjectNotExist))), buffer))
  ∧ ((2 ^ 63 ≤ start < 2 ^ 64)%Z →
     Object env fuel st blockID tenantID start buffer
     = (Some (Returned (Some (Ext (storage_invalid_offset (start - 2 ^ 64))))),
        buffer)).
Proof.
  intros Hnone.
  destruct (Hnone (metaFileName blockID tenantID)) as [Hm Hmr];
    [unfold block_keys; rewrite !elem_of_cons; tauto|].
  destruct (Hnone (bloomFileName blockID tenantID)) as [Hb Hbr];
    [unfold block_keys; rewrite !elem_of_cons; tauto|].
  destruct (Hnone (indexFileName blockID tenantID)) as [Hi Hir];
    [unfold block_keys; rewrite !elem_of_cons; tauto|].
  destruct (Hnone (objectFileName blockID tenantID)) as [Hd Hdr];
    [unfold block_keys; rewrite !elem_of_cons; tauto|].
  unfold Bloom, Index, BlockMeta, Object, readRange, NewRangeReader.
  rewrite !readAll_missing by done. split_and!; try done.
  - intros Hstart. rewrite to_int64_small by lia.
    rewrite decide_False by lia. by rewrite Hdr, Hd.
  - intros Hstart.
    assert (to_int64 start = start - 2 ^ 64)%Z as ->.
    { unfold to_int64.
      replace (start + 2 ^ 63)%Z with ((start - 2 ^ 63) + 1 * 2 ^ 64)%Z by lia.
      rewrite Z.mod_add by lia. rewrite Z.mod_small by lia. lia. }
    by rewrite decide_True by lia.
Qed.

(** X8: [BlockMeta] returns either a record or an error, never both and
    never neither; a record it returns is what [json.Unmarshal] makes of the
    whole content of the block's [meta.json]. *)
Theorem BlockMeta_record_or_error (st : State) (blockID : UUID) (tenantID : string) :
  match BlockMeta env st blockID tenantID with
  | (Some out, None) =>
      ∃ bytes, objects st !! metaFileName blockID tenantID = Some bytes
        ∧ json_Unmarshal env bytes = inl out
  | (None, Some _) => True
  | _ => False
  end.
Proof.
  unfold BlockMeta.
  destruct (readAll env st (metaFileName blockID tenantID)) as [bytes [e|]] eqn:Hread;
    [done|].
  apply readAll_nil_iff in Hread as (_ & _ & Hobj).
  destruct (json_Unmarshal env bytes) eqn:Hjson; [eauto|done].
Qed.

(** X9: [readAllWithModTime] fails exactly when [readAll] does, with the
    same error; on success it returns the same bytes, the whole object,
    with the object's modification time, and on an error it returns no
    bytes and the zero time. *)
Theorem readAllWithModTime_readAll (LastModified : string → time_Time)
    (st : State) (name : string) :
  let '(bytes, modTime, err) := readAllWithModTime env LastModified st name in
  err = (readAll env st name).2
  ∧ match err with
    | None =>
        bytes = (readAll env st name).1 ∧ objects st !! name = Some bytes
        ∧ modTime = LastModified name
    | Some _ => bytes = [] ∧ modTime = 0%Z
    end.
Proof.
  unfold readAllWithModTime, readAll, NewReader, ioutil_ReadAll.
  destruct (reader_fault env name); [done|].
  destruct (objects st !! name); [|done].
  by destruct (stream_fault env name) as [[n e]|].
Qed.

(** X10: when the stream of an object breaks off after [n] bytes,
    [readAll], and with it [Bloom] and [Index], returns the bytes read so
    far together with the error; [BlockMeta] returns the error and no
    record (the bytes are not handed to [json.Unmarshal]); and
    [readAllWithModTime] drops the bytes. *)
Theorem read_broken_stream (LastModified : string → time_Time) (st : State)
    (blockID : UUID) (tenantID : string) (name : string) (content : list byte)
    (n : nat) (e : ext_error) :
  objects st !! name = Some content → reader_fault env name = None →
  stream_fault env name = Some (n, e) →
  readAll env st name = (take n content, Some (Ext e))
  ∧ (name = bloomFileName blockID tenantID →
     Bloom env st blockID tenantID = (take n content, Some (Ext e)))
  ∧ (name = indexFileName blockID tenantID →
     Index env st blockID tenantID = (take n content, Some (Ext e)))
  ∧ (name = metaFileName blockID tenantID →
     BlockMeta env st blockID tenantID = (None, Some (Ext e)))
  ∧ readAllWithModTime env LastModified st name = ([], 0%Z, Some (Ext e)).
Proof.
  intros Hobj Hr Hs.
  assert (readAll env st name = (take n content, Some (Ext e))) as Hread.
  { unfold readAll, NewReader, ioutil_ReadAll. by rewrite Hr, Hobj, Hs. }
  split_and!.
  - exact Hread.
  - intros ->. exact Hread.
  - intros ->. exact Hread.
  - intros ->. unfold BlockMeta. by rewrite Hread.
  - unfold readAllWithModTime, NewReader, ioutil_ReadAll. by rewrite Hr, Hobj, Hs.
Qed.

End ReadFacts.

Lemma read_missing_block_witness :
  Bloom ok_env st0 uuid1 "t1" = ([], Some (Ext storage_ErrObjectNotExist))
  ∧ Index ok_env st0 uuid1 "t1" = ([], Some (Ext storage_ErrObjectNotExist))
  ∧ BlockMeta ok_env st0 uuid1 "t1" = (None, Some (Ext storage_ErrObjectNotExist))
  ∧ Object ok_env 3 st0 uuid1 "t1" 0 [x00; x00]
    = (Some (Returned (Some (Ext storage_ErrObjectNotExist))), [x00; x00]).
Proof.
  destruct (read_missing_block ok_env st0 uuid1 "t1" 0 [x00; x00] 3)
    as (Hb & Hi & Hm & Ho & _).
  { intros name _. split; reflexivity. }
  split_and!; [exact Hb|exact Hi|exact Hm|apply Ho; lia].
Defined.

Lemma read_broken_stream_witness :
  Bloom flaky_env st_block uuid1 "t1" = ([x0a], Some (Ext err503))
  ∧ readAllWithModTime flaky_env (λ _, 1604000000%Z) st_block
      (bloomFileName uuid1 "t1") = ([], 0%Z, Some (Ext err503)).
Proof.
  destruct (read_broken_stream flaky_env (λ _, 1604000000%Z) st_block uuid1 "t1"
              (bloomFileName uuid1 "t1") [x0a] 2 err503)
    as (_ & Hbloom & _ & _ & Hmod); try reflexivity.
  split; [exact (Hbloom eq_refl)|exact Hmod].
Defined.

(** ** Listings and names *)

Lemma substring_append_l (a b : string) :
  substring 0 (String.length a) (a +:+ b) = a.
Proof.
  induction a as [|c a IH]; [by destruct b|].
  rewrite append_cons. simpl. by rewrite IH.
Qed.

Lemma substring_all (s : string) : substring 0 (String.length s) s = s.
Proof. induction s as [|c s IH]; [done|]. simpl. by rewrite IH. Qed.

Lemma substring_append_r (a b : string) :
  substring (String.length a) (String.length b) (a +:+ b) = b.
Proof.
  induction a as [|c a IH]; [apply substring_all|].
  by rewrite append_cons.
Qed.

Lemma strings_TrimPrefix_append (prefix s : string) :
  strings_TrimPrefix (prefix +:+ s) prefix = s.
Proof.
  unfold strings_TrimPrefix, strings_HasPrefix.
  rewrite substring_append_l, length_append.
  rewrite !bool_decide_true by (done || lia). simpl.
  replace (String.length prefix + String.length s - String.length prefix)%nat
    with (String.length s) by lia.
  apply substring_append_r.
Qed.

Lemma strings_TrimSuffix_append (s suffix : string) :
  strings_TrimSuffix (s +:+ suffix) suffix = s.
Proof.
  unfold strings_TrimSuffix, strings_HasSuffix. rewrite length_append.
  replace (String.length s + String.length suffix - String.length suffix)%nat
    with (String.length s) by lia.
  rewrite substring_append_r, substring_append_l.
  by rewrite !bool_decide_true by (done || lia).
Qed.

Lemma plain_tenant_spec (tenantID : string) :
  plain_tenant tenantID = true ↔
  has_slash tenantID = false ∧ tenantID ≠ "" ∧ tenantID ≠ ".".
Proof.
  unfold plain_tenant. rewrite !andb_true_iff, negb_true_iff, !bool_decide_eq_true.
  tauto.
Qed.

Lemma idString_of_dir_entry (blockID : UUID) (tenantID : string) :
  plain_tenant tenantID = true →
  idString_of tenantID (dir_entry (rootPath blockID tenantID)) = UUID_String blockID.
Proof.
  intros (Hsl & Hne & Hdot)%plain_tenant_spec.
  unfold idString_of, dir_entry. simpl.
  rewrite rootPath_plain by done.
  rewrite <-append_assoc, (append_assoc (tenantID +:+ "/")).
  by rewrite strings_TrimPrefix_append, strings_TrimSuffix_append.
Qed.

Section ListingFacts.
Context {backend_BlockMeta : Type}.
Variable env : Env backend_BlockMeta.

Lemma rights_Blocks_entry_nil (tenantID : string) (entries : list ObjectAttrs) :
  rights (map (Blocks_entry env tenantID) entries) = [] →
  Forall (λ attrs, parses env tenantID attrs = true) entries.
Proof.
  unfold rights, parses, Blocks_entry.
  induction entries as [|attrs entries IH]; [done|]. simpl.
  destruct (uuid_Parse env _) eqn:Hp; [|done].
  intros Hnil. constructor; [by rewrite Hp|]. by apply IH.
Qed.

Lemma parsed_ids_all (tenantID : string) (entries : list ObjectAttrs) :
  Forall (λ attrs, parses env tenantID attrs = true) entries →
  length (parsed_ids env tenantID entries) = length entries.
Proof.
  intros Hparse. rewrite length_parsed_ids. f_equal.
  induction Hparse as [|a l Ha _ IH]; [done|].
  rewrite filter_cons. destruct (decide _); [by f_equal|done].
Qed.

(** X11: [Tenants] returns exactly when the listing is read to its end,
    after one more call of [Next] than there are entries; the warning it
    returns is then nil and it returns one tenant for every entry, in the
    order of the listing. *)
Theorem Tenants_nil_iff (fuel : nat) (tenants : list string)
    (warning : option error) :
  let iter := listing env (mkQuery "" "/" false) in
  Tenants env fuel = Some (tenants, warning) ↔
  warning = None
  ∧ it_err iter = iterator_Done
  ∧ (length (it_entries iter) < fuel)%nat
  ∧ tenants = map (λ attrs, strings_TrimSuffix (Prefix attrs) "/") (it_entries iter).
Proof.
  unfold Tenants. destruct (listing env _) as [entries err]. cbn [it_err it_entries].
  destruct (decide (err = iterator_Done)) as [->|Herr].
  - destruct (decide (length entries < fuel)%nat) as [Hfuel|Hfuel].
    + rewrite Tenants_loop_Done by done. cbn [app]. split.
      * by intros [= <- <-].
      * by intros (-> & _ & _ & ->).
    + rewrite Tenants_loop_running by lia. split; [done|]. by intros (_ & _ & ? & _).
  - rewrite Tenants_loop_broken by done. split; [done|]. by intros (_ & ? & _).
Qed.

(** X12: [Blocks] returns a nil warning exactly when the listing is read to
    its end and every name read parses as a block id; it then returns the
    ids of all entries, in the order of the listing. *)
Theorem Blocks_nil_iff (fuel : nat) (tenantID : string) (blocks : list UUID) :
  let iter := listing env (mkQuery (tenantID +:+ "/") "/" false) in
  Blocks env fuel tenantID = Some (blocks, None) ↔
  it_err iter = iterator_Done
  ∧ (length (it_entries iter) < fuel)%nat
  ∧ Forall (λ attrs, parses env tenantID attrs = true) (it_entries iter)
  ∧ blocks = parsed_ids env tenantID (it_entries iter)
  ∧ length blocks = length (it_entries iter).
Proof.
  unfold Blocks. destruct (listing env _) as [entries err]. cbn [it_err it_entries].
  destruct (decide (err = iterator_Done)) as [->|Herr].
  - destruct (decide (length entries < fuel)%nat) as [Hfuel|Hfuel].
    + rewrite Blocks_loop_Done by done. cbn [app from_option].
      rewrite lefts_Blocks_entry. split.
      * intros [= <- Hlast].
        assert (last (rights (map (Blocks_entry env tenantID) entries)) = None)
          as Hnone by (by destruct (last _)).
        clear Hlast. apply last_None in Hnone as Hlast.
        apply rights_Blocks_entry_nil in Hlast.
        split_and!; [done..|]. by apply parsed_ids_all.
      * intros (_ & _ & Hparse & -> & _).
        by rewrite rights_Blocks_entry_parsed.
    + rewrite Blocks_loop_running by lia. split; [done|]. by intros (_ & ? & _).
  - rewrite Blocks_loop_broken by done. split; [done|]. by intros (? & _).
Qed.

(** X13: [Tenants] gives back the names under which the bucket lists its
    top-level prefixes: when the listing holds the entries [t/] for the
    names [t] of a list, [Tenants] returns that list and a nil warning. *)
Theorem Tenants_lists_names (tenants : list string) (fuel : nat) :
  listing env (mkQuery "" "/" false)
  = mkIterator (map dir_entry tenants) iterator_Done →
  (length tenants < fuel)%nat →
  Tenants env fuel = Some (tenants, None).
Proof.
  intros Hlist Hfuel. unfold Tenants.
  rewrite Hlist, Tenants_loop_Done by (by rewrite length_map).
  cbn [app]. f_equal. f_equal.
  rewrite map_map. rewrite <-(map_id tenants) at 2.
  apply map_ext. intros t. apply strings_TrimSuffix_append.
Qed.

(** X14: [Blocks] undoes the key scheme: when the listing under the prefix
    of a plain tenant holds the root paths of a list of blocks (as the
    bucket lists them, with the delimiter at the end) and [uuid.Parse]
    reads back what [UUID.String] printed, [Blocks] returns exactly those
    block ids, in order, and a nil warning. *)
Theorem Blocks_lists_roots (tenantID : string) (ids : list UUID) (fuel : nat) :
  plain_tenant tenantID = true →
  listing env (mkQuery (tenantID +:+ "/") "/" false)
  = mkIterator (map (λ id, dir_entry (rootPath id tenantID)) ids) iterator_Done →
  (∀ id, id ∈ ids → uuid_Parse env (UUID_String id) = inl id) →
  (length ids < fuel)%nat →
  Blocks env fuel tenantID = Some (ids, None).
Proof.
  intros Hplain Hlist Hparse Hfuel. unfold Blocks.
  rewrite Hlist, Blocks_loop_Done by (by rewrite length_map). cbn [app].
  assert (map (Blocks_entry env tenantID)
              (map (λ id, dir_entry (rootPath id tenantID)) ids)
          = map inl ids) as ->.
  { rewrite !map_map. apply map_ext_in. intros id Hid%list_elem_of_In.
    unfold Blocks_entry. rewrite idString_of_dir_entry by done.
    by rewrite Hparse. }
  assert (rights (map inl ids : list (UUID + error)) = []) as ->
    by (unfold rights; clear; induction ids; [done|]; simpl; done).
  f_equal. f_equal. unfold lefts. clear. induction ids as [|id ids IH]; [done|].
  simpl. f_equal. exact IH.
Qed.

End ListingFacts.

Lemma Tenants_lists_names_witness :
  Tenants tenants_env 3 = Some (["t1"; "t2"], None).
Proof.
  apply (Tenants_lists_names tenants_env ["t1"; "t2"] 3).
  - reflexivity.
  - simpl. lia.
Defined.

Lemma Blocks_lists_roots_witness :
  Blocks blocks_env 3 "t1" = Some ([uuid1; uuid2], None).
Proof.
  apply (Blocks_lists_roots blocks_env "t1" [uuid1; uuid2] 3).
  - reflexivity.
  - reflexivity.
  - intros id Hid. apply elem_of_cons in Hid as [->|Hid]; [reflexivity|].
    apply elem_of_cons in Hid as [->|Hid]; [reflexivity|].
    by apply elem_of_nil in Hid.
  - simpl. lia.
Defined.

(** ** More on the key scheme *)

Lemma path_Clean_name (u : string) : is_name u = true → path_Clean u = u.
Proof.
  intros Hu. pose proof Hu as (Hsl & Hne & _)%is_name_spec.
  unfold path_Clean. rewrite decide_False by done.
  assert (is_rooted u = false) as ->.
  { destruct u as [|c u]; [done|]. simpl in *.
    by apply orb_false_iff in Hsl as [-> _]. }
  rewrite path_elements_name by done. simpl.
  rewrite clean_step_name by done. simpl. by rewrite decide_False.
Qed.

Lemma path_Clean_dot_name (u : string) :
  is_name u = true → path_Clean ("." +:+ "/" +:+ u) = u.
Proof.
  intros Hu. pose proof Hu as (Hsl & Hne & _)%is_name_spec.
  unfold path_Clean. rewrite decide_False by done.
  change ("." +:+ "/" +:+ u) with ("." +:+ String slash u).
  rewrite path_elements_app by done.
  rewrite path_elements_name by done. simpl.
  rewrite clean_step_name by done. simpl. by rewrite decide_False.
Qed.

Lemma rootPath_no_tenant (blockID : UUID) (tenantID : string) :
  tenantID = "" ∨ tenantID = "." → rootPath blockID tenantID = UUID_String blockID.
Proof.
  pose proof (is_name_UUID_String blockID) as Hu.
  pose proof Hu as (_ & Hne & _)%is_name_spec.
  unfold rootPath. intros [-> | ->]; simpl.
  - rewrite decide_False by done. by apply path_Clean_name.
  - by apply path_Clean_dot_name.
Qed.

Lemma path_Join_name (u n : string) :
  is_name u = true → is_name n = true → path_Join [u; n] = u +:+ "/" +:+ n.
Proof.
  intros (Hsl & Hne & Hdot & _)%is_name_spec Hn. simpl.
  rewrite decide_False by done.
  apply (path_Clean_tenant_names u [n]); try done. by repeat constructor.
Qed.

Lemma hex_char_hi_not_dot (v : byte) :
  hex_char (N.shiftr (Byte.to_N v) 4) ≠ "."%char.
Proof. by destruct v. Qed.

Lemma UUID_String_head (u : UUID) :
  ∃ c rest, UUID_String u = String c rest ∧ c ≠ "."%char ∧ c ≠ slash.
Proof.
  pose proof (has_slash_UUID_String u) as Hsl.
  assert (∃ c rest, UUID_String u = String c rest ∧ c ≠ "."%char)
    as (c & rest & Hu & Hc).
  { unfold UUID_String. destruct (uuid_bytes u) as [|v l]; simpl.
    - by eexists _, _.
    - rewrite !append_cons. eexists _, _. split; [done|].
      apply hex_char_hi_not_dot. }
  exists c, rest. split_and!; [done..|].
  rewrite Hu in Hsl. simpl in Hsl.
  apply orb_false_iff in Hsl as [Hc' _]. by apply bool_decide_eq_false in Hc'.
Qed.

Lemma length_hex_Encode (src : list byte) :
  String.length (hex_Encode src) = (2 * length src)%nat.
Proof. induction src as [|v src IH]; [done|]. simpl. rewrite IH. lia. Qed.

Lemma hex_digits_byte (v : byte) :
  Byte.of_N (hex_val (hex_char (N.shiftr (Byte.to_N v) 4)) * 16
             + hex_val (hex_char (N.land (Byte.to_N v) 15))) = Some v.
Proof. by destruct v. Qed.

Lemma hex_Encode_inj (l1 l2 : list byte) :
  hex_Encode l1 = hex_Encode l2 → l1 = l2.
Proof.
  revert l2. induction l1 as [|v1 l1 IH]; intros [|v2 l2]; simpl; try done.
  intros [= Hhi Hlo Hrest]. f_equal; [|by apply IH].
  pose proof (hex_digits_byte v1) as H1. rewrite Hhi, Hlo, hex_digits_byte in H1.
  congruence.
Qed.

Lemma append_inj_length (a a' b b' : string) :
  String.length a = String.length a' → a +:+ b = a' +:+ b' → a = a' ∧ b = b'.
Proof.
  revert a'. induction a as [|c a IH]; intros [|c' a']; simpl; try done.
  intros [= Hlen]. rewrite !append_cons. intros [= -> Heq].
  destruct (IH a' Hlen Heq) as [-> ->]. done.
Qed.

Lemma uuid_bytes_split (b : list byte) :
  b = take 4 b ++ take 2 (drop 4 b) ++ take 2 (drop 6 b) ++ take 2 (drop 8 b)
      ++ drop 10 b.
Proof.
  replace (drop 10 b) with (drop 2 (drop 8 b)) by (by rewrite drop_drop).
  rewrite take_drop.
  replace (drop 8 b) with (drop 2 (drop 6 b)) by (by rewrite drop_drop).
  rewrite take_drop.
  replace (drop 6 b) with (drop 2 (drop 4 b)) by (by rewrite drop_drop).
  by rewrite !take_drop.
Qed.

Lemma UUID_String_inj (u1 u2 : UUID) :
  length (uuid_bytes u1) = length (uuid_bytes u2) →
  UUID_String u1 = UUID_String u2 → u1 = u2.
Proof.
  destruct u1 as [b1], u2 as [b2]. unfold UUID_String. simpl. intros Hlen Heq.
  apply append_inj_length in Heq as [H1%hex_Encode_inj Heq];
    [|rewrite !length_hex_Encode, !length_take; lia].
  rewrite ?append_cons, ?append_nil_l in Heq. injection Heq as Heq.
  apply append_inj_length in Heq as [H2%hex_Encode_inj Heq];
    [|rewrite !length_hex_Encode, !length_take, !length_drop; lia].
  rewrite ?append_cons, ?append_nil_l in Heq. injection Heq as Heq.
  apply append_inj_length in Heq as [H3%hex_Encode_inj Heq];
    [|rewrite !length_hex_Encode, !length_take, !length_drop; lia].
  rewrite ?append_cons, ?append_nil_l in Heq. injection Heq as Heq.
  apply append_inj_length in Heq as [H4%hex_Encode_inj Heq];
    [|rewrite !length_hex_Encode, !length_take, !length_drop; lia].
  rewrite ?append_cons, ?append_nil_l in Heq. injection Heq as Heq.
  apply hex_Encode_inj in Heq.
  f_equal. rewrite (uuid_bytes_split b1), (uuid_bytes_split b2). congruence.
Qed.

(** The elements of a key of a plain tenant: tenant, block id, component. *)
Lemma key_elements (blockID : UUID) (tenantID k : string) :
  plain_tenant tenantID = true → k ∈ block_keys blockID tenantID →
  ∃ c, path_elements k = [tenantID; UUID_String blockID; c].
Proof.
  intros (Hsl & Hne & Hdot)%plain_tenant_spec Hk.
  assert (∃ c, is_name c = true
               ∧ k = strings_Join [tenantID; UUID_String blockID; c] "/")
    as (c & Hc & ->).
  { unfold block_keys, metaFileName, bloomFileName, indexFileName,
      objectFileName in Hk.
    rewrite !elem_of_cons, elem_of_nil in Hk.
    destruct Hk as [->|[->|[->|[->|[]]]]]; eexists;
      (split; [|rewrite path_Join_plain by done; cbn [strings_Join];
                by rewrite !append_assoc]); done. }
  exists c. apply path_elements_Join; [done|].
  pose proof (has_slash_UUID_String blockID).
  apply is_name_spec in Hc as (? & _). by repeat constructor.
Qed.

Lemma block_keys_inj (b1 b2 : UUID) (t1 t2 k : string) :
  plain_tenant t1 = true → plain_tenant t2 = true →
  length (uuid_bytes b1) = length (uuid_bytes b2) →
  k ∈ block_keys b1 t1 → k ∈ block_keys b2 t2 → t1 = t2 ∧ b1 = b2.
Proof.
  intros Ht1 Ht2 Hlen [c1 H1]%key_elements [c2 H2]%key_elements; try done.
  rewrite H1 in H2. injection H2 as -> Hu _.
  split; [done|]. by apply UUID_String_inj.
Qed.

(** X15: for the tenant ids that [path.Join] drops, the empty one and [.],
    the four keys of a block are [block-id/component], without a tenant
    segment, so that none of them lies under the prefix [tenant-id/] that
    [Blocks] lists for that tenant. *)
Theorem key_scheme_no_tenant_segment (blockID : UUID) (tenantID : string) :
  tenantID = "" ∨ tenantID = "." →
  block_keys blockID tenantID
  = map (λ c, UUID_String blockID +:+ "/" +:+ c) ["meta.json"; "bloom"; "index"; "data"]
  ∧ Forall (λ k, strings_HasPrefix k (tenantID +:+ "/") = false)
           (block_keys blockID tenantID).
Proof.
  intros Ht.
  assert (block_keys blockID tenantID
          = map (λ c, UUID_String blockID +:+ "/" +:+ c)
                ["meta.json"; "bloom"; "index"; "data"]) as Hkeys.
  { unfold block_keys, metaFileName, bloomFileName, indexFileName, objectFileName.
    rewrite rootPath_no_tenant by done.
    pose proof (is_name_UUID_String blockID).
    by rewrite !path_Join_name. }
  split; [done|]. rewrite Hkeys.
  destruct (UUID_String_head blockID) as (c & rest & -> & Hdot & Hsl).
  unfold strings_HasPrefix.
  unfold slash in Hsl.
  destruct Ht as [-> | ->]; repeat constructor;
    rewrite !append_cons, !append_nil_l; cbn [String.length substring];
    (rewrite (bool_decide_false (String c _ = _)) by congruence);
    apply andb_false_r.
Qed.

(** X16: the four keys of a block are pairwise distinct, for every block id
    and every tenant id, also those that [path.Join] rewrites. *)
Theorem block_keys_NoDup (blockID : UUID) (tenantID : string) :
  NoDup (block_keys blockID tenantID).
Proof.
  destruct (keys_distinct blockID tenantID)
    as (Hbi & Hbd & Hbm & Hid & Him & Hdm).
  unfold block_keys. repeat constructor;
    rewrite ?elem_of_cons, ?elem_of_nil; intuition congruence.
Qed.

(** X17: the key scheme keeps blocks apart: for plain tenant ids and block
    ids of sixteen bytes, a key of one block is a key of another only when
    the two have the same tenant id and the same block id. *)
Theorem block_keys_injective (b1 b2 : UUID) (t1 t2 k : string) :
  plain_tenant t1 = true → plain_tenant t2 = true →
  length (uuid_bytes b1) = 16%nat → length (uuid_bytes b2) = 16%nat →
  k ∈ block_keys b1 t1 → k ∈ block_keys b2 t2 → t1 = t2 ∧ b1 = b2.
Proof.
  intros Ht1 Ht2 Hb1 Hb2. apply block_keys_inj; [done..|congruence].
Qed.

Lemma key_scheme_no_tenant_segment_witness :
  block_keys uuid1 "."
  = ["deadbeef-0001-0203-0405-060708090aff/meta.json";
     "deadbeef-0001-0203-0405-060708090aff/bloom";
     "deadbeef-0001-0203-0405-060708090aff/index";
     "deadbeef-0001-0203-0405-060708090aff/data"]
  ∧ Forall (λ k, strings_HasPrefix k "./" = false) (block_keys uuid1 ".").
Proof.
  apply (key_scheme_no_tenant_segment uuid1 "."). right. reflexivity.
Defined.

Lemma block_keys_injective_witness :
  "t1" = "t1" ∧ uuid1 = uuid1.
Proof.
  apply (block_keys_injective uuid1 uuid1 "t1" "t1" (bloomFileName uuid1 "t1"));
    try reflexivity;
    unfold block_keys; rewrite !elem_of_cons; tauto.
Defined.

(** ** Blocks side by side *)

Section Isolation.
Context {backend_BlockMeta : Type}.
Variable env : Env backend_BlockMeta.

Lemma readAll_lookup (st st' : State) (name : string) :
  objects st' !! name = objects st !! name →
  readAll env st' name = readAll env st name.
Proof. intros Heq. unfold readAll, NewReader. by rewrite Heq. Qed.

Lemma readRange_lookup (fuel : nat) (st st' : State) (name : string)
    (offset : Z) (buffer : list byte) :
  objects st' !! name = objects st !! name →
  readRange env fuel st' name offset buffer
  = readRange env fuel st name offset buffer.
Proof. intros Heq. unfold readRange, NewRangeReader. by rewrite Heq. Qed.

(** X18: writing one block does not change what the read operations return
    for another: for plain tenant ids and sixteen-byte block ids that differ
    in the tenant or in the block, [Bloom], [Index], [BlockMeta] and
    [Object] of the one return after a [Write] of the other, successful or
    not, what they returned before. *)
Theorem Write_isolated (b1 b2 : UUID) (t1 t2 : string) (meta : backend_BlockMeta)
    (bBloom bIndex : list byte) (objectFilePath : string) (st : State)
    (start : Z) (buffer : list byte) (fuel : nat) :
  plain_tenant t1 = true → plain_tenant t2 = true →
  length (uuid_bytes b1) = 16%nat → length (uuid_bytes b2) = 16%nat →
  (t1, b1) ≠ (t2, b2) →
  let st' := (Write env b2 t2 meta bBloom bIndex objectFilePath st).2 in
  Bloom env st' b1 t1 = Bloom env st b1 t1
  ∧ Index env st' b1 t1 = Index env st b1 t1
  ∧ BlockMeta env st' b1 t1 = BlockMeta env st b1 t1
  ∧ Object env fuel st' b1 t1 start buffer = Object env fuel st b1 t1 start buffer.
Proof.
  intros Ht1 Ht2 Hb1 Hb2 Hne st'.
  assert (∀ k, k ∈ block_keys b1 t1 → objects st' !! k = objects st !! k)
    as Hsame.
  { intros k Hk. unfold st'. rewrite Write_lookup, written_None; [done|].
    intros b Hb%performed_closes.
    destruct (block_keys_inj b1 b2 t1 t2 k) as [-> ->]; try done. congruence. }
  unfold Bloom, Index, BlockMeta, Object.
  rewrite !(readAll_lookup st st'), (readRange_lookup fuel st st'); [done|..];
    apply Hsame; unfold block_keys; rewrite !elem_of_cons; tauto.
Qed.

(** X19: [writeAll] leaves every other object alone and closes its writer
    on both paths.  When the bucket accepts the upload, [writeAll] returns
    nil and the object holds exactly the bytes given.  When the bucket
    rejects it, the bucket is as it was, and [writeAll] returns the
    rejection only if the bytes do not fit into the chunk buffer of the
    writer, and nil otherwise: an error tells that nothing was stored, but
    nil does not tell that the object was. *)
Theorem writeAll_all_or_nothing (name : string) (b : list byte) (st : State) :
  let '(err, st') := writeAll env name b st in
  (∀ other, other ≠ name → objects st' !! other = objects st !! other)
  ∧ (is_Some err → objects st' = objects st)
  ∧ match upload_fault env name with
    | None =>
        err = None ∧ objects st' !! name = Some b
        ∧ trace st' = trace st ++ [CallWrite name b; CallClose name (Some b)]
    | Some e =>
        objects st' = objects st
        ∧ trace st' = trace st ++ [CallWrite name b; CallClose name None]
        ∧ err = if decide (accepted env (writer env name) < N.of_nat (length b))%N
                then Some (Ext e) else None
    end.
Proof.
  rewrite writeAll_run. unfold reported, closes. cbn [w_buf w_name writer app].
  destruct (upload_fault env name) as [e|] eqn:Hf; cbn.
  - split_and!; try done. by destruct (decide _).
  - split_and!.
    + intros other Hother. by rewrite lookup_insert_ne.
    + destruct (decide _); by intros [??].
    + by destruct (decide _).
    + by rewrite lookup_insert_eq.
    + done.
Qed.

End Isolation.

Lemma Write_isolated_witness :
  let st' := (Write ok_env uuid2 "t1" [x7b; x7d] [x0a] [x0b; x0c] "/tmp/blk" st_block).2 in
  Bloom ok_env st' uuid1 "t1" = ([x0a], None)
  ∧ BlockMeta ok_env st' uuid1 "t1" = (Some [x7b; x7d], None).
Proof.
  destruct (Write_isolated ok_env uuid1 uuid2 "t1" "t1" [x7b; x7d] [x0a]
              [x0b; x0c] "/tmp/blk" st_block 0 [] 1)
    as (Hbloom & _ & Hmeta & _); try reflexivity.
  - intros [=].
  - cbv zeta in *. rewrite Hbloom, Hmeta. split; reflexivity.
Defined.

(** ** [Object] on every path *)

Lemma readRange_loop_fault (fuel : nat) (remain : list byte) (e : ext_error)
    (plan : list read_step) (eager : bool) (buffer : list byte) (total : nat) :
  (total ≤ length buffer)%nat → e ≠ io_EOF →
  ∃ r', readRange_loop (S fuel) (mkRangeReader remain (Fault e :: plan) eager)
          buffer (Z.of_nat total) =
        (Some (Returned (Some (Ext e))), buffer, r', Z.of_nat total).
Proof.
  intros Htotal He. simpl. rewrite decide_True by lia. rewrite Nat2Z.id.
  unfold Read, RangeReader_Read. simpl.
  rewrite decide_False by done.
  rewrite store_fits by (simpl; lia). simpl.
  rewrite drop_0, take_drop. eauto.
Qed.

Section ObjectPaths.
Context {backend_BlockMeta : Type}.
Variable env : Env backend_BlockMeta.
Variables (st : State) (blockID : UUID) (tenantID : string).
Variables (start : Z) (buffer : list byte) (fuel : nat).

(** X20: [Object] returns within [len(buffer) + 1] reads on every path:
    whether the object exists or not, whatever the offset, and whatever the
    stream delivers or fails with, the call ends with nil or an error, it
    never panics, and the caller's buffer keeps its length. *)
Theorem Object_always_returns :
  (length buffer < fuel)%nat →
  ∃ err buffer',
    Object env fuel st blockID tenantID start buffer = (Some (Returned err), buffer')
    ∧ length buffer' = length buffer.
Proof.
  intros Hfuel. unfold Object, readRange.
  destruct (NewRangeReader env st _ _ _) as [r|e]; [|eauto].
  pose proof (readRange_loop_invariant RangeReader_contract fuel r buffer 0) as Hinv.
  pose proof (readRange_loop_terminates RangeReader_contract fuel r buffer 0) as Hterm.
  destruct (readRange_loop fuel r buffer 0) as [[[res buffer'] r'] total'].
  destruct Hinv as (Hpanic & Hlen & _); [lia|].
  specialize (Hterm ltac:(lia) ltac:(lia)). simpl in Hterm.
  destruct res as [[err|]|]; [eauto|done|done].
Qed.

(** X21: when the stream of the range fails after some reads that made
    progress, [Object] returns that error, and the caller's buffer holds the
    bytes delivered before it, in order, in front of what it held. *)
Theorem Object_stream_fault (content : list byte) (pre rest : list read_step)
    (e : ext_error) :
  objects st !! objectFileName blockID tenantID = Some content →
  reader_fault env (objectFileName blockID tenantID) = None →
  (0 ≤ start ≤ Z.of_nat (length content))%Z → (start < 2 ^ 63)%Z →
  range_plan env (objectFileName blockID tenantID) = pre ++ Fault e :: rest →
  Forall (λ s, steady s = true) pre →
  (plan_bytes pre < length (range_data content start (length buffer)))%nat →
  e ≠ io_EOF → (length pre < fuel)%nat →
  Object env fuel st blockID tenantID start buffer =
  (Some (Returned (Some (Ext e))),
   take (plan_bytes pre) (range_data content start (length buffer))
   ++ drop (plan_bytes pre) buffer).
Proof.
  intros Hobj Hr Hstart Hint Hplan Hpre Hfit He Hfuel.
  assert (0 < length buffer ∧ Z.to_nat start < length content)%nat as [Hbuf Hin].
  { unfold range_data in Hfit. rewrite length_take, length_drop in Hfit. lia. }
  rewrite (Object_loop env st blockID tenantID content start buffer fuel)
    by (done || lia || (intros ->; simpl in Hbuf; lia)).
  rewrite Hplan. set (data := range_data content start (length buffer)) in *.
  assert (length data ≤ length buffer)%nat
    by (unfold data, range_data; rewrite length_take; lia).
  replace fuel with (length pre + S (fuel - S (length pre)))%nat by lia.
  pose proof (readRange_loop_prefix pre data (Fault e :: rest)
                (range_eager env (objectFileName blockID tenantID)) [] buffer
                (S (fuel - S (length pre))) Hpre) as Hrun.
  cbn [app length] in Hrun. change (Z.of_nat 0) with 0%Z in Hrun.
  rewrite Hrun by lia.
  destruct (readRange_loop_fault (fuel - S (length pre))
              (drop (plan_bytes pre) data) e rest
              (range_eager env (objectFileName blockID tenantID))
              (take (plan_bytes pre) data ++ drop (plan_bytes pre) buffer)
              (length (take (plan_bytes pre) data))) as [r' Hr']; [|done|].
  { rewrite length_app. lia. }
  by rewrite Hr'.
Qed.

End ObjectPaths.

Lemma Object_always_returns_witness :
  ∃ err buffer',
    Object flaky_env 6 st_payload uuid1 "t1" 0 [x00; x00; x00; x00; x00]
    = (Some (Returned err), buffer')
    ∧ length buffer' = 5%nat.
Proof.
  apply (Object_always_returns flaky_env st_payload uuid1 "t1" 0
           [x00; x00; x00; x00; x00] 6).
  simpl. lia.
Defined.

Lemma Object_stream_fault_witness :
  Object flaky_env 6 st_payload uuid1 "t1" 0 [x00; x00; x00; x00; x00]
  = (Some (Returned (Some (Ext err503))), [x01; x02; x00; x00; x00]).
Proof.
  apply (Object_stream_fault flaky_env st_payload uuid1 "t1" 0
           [x00; x00; x00; x00; x00] 6 [x01; x02; x03; x04; x05]
           [Deliver 2] [] err503); try reflexivity; try done.
  - repeat constructor.
  - vm_compute. lia.
  - simpl. lia.
Defined.

(** ** The calls of [Write] *)

Lemma written_Some_elem (calls : list call) (name : string) (v : list byte) :
  written calls name = Some v → CallClose name (Some v) ∈ calls.
Proof.
  induction calls as [|c calls IH] using rev_ind; [done|].
  rewrite written_snoc, elem_of_app, list_elem_of_singleton.
  destruct c as [| |n [b|]| | |]; try (intros ?; left; by apply IH).
  destruct (decide (n = name)) as [->|]; [|intros ?; left; by apply IH].
  intros [= ->]. by right.
Qed.

Section WriteCalls.
Context {backend_BlockMeta : Type}.
Variable env : Env backend_BlockMeta.
Variables (blockID : UUID) (tenantID : string) (meta : backend_BlockMeta).
Variables (bBloom bIndex : list byte) (objectFilePath : string).

Abbreviation Write'' := (Write env blockID tenantID meta bBloom bIndex objectFilePath).
Abbreviation performed'' := (performed env blockID tenantID meta bBloom bIndex objectFilePath).
Abbreviation step_component'' := (step_component env blockID tenantID meta bBloom bIndex objectFilePath).

Lemma closes_Some (n name : string) (b v : list byte) :
  CallClose n (Some v) = closes env name b → n = name ∧ v = b.
Proof.
  unfold closes. destruct (upload_fault env name); [done|]. by intros [= -> ->].
Qed.

(** A successful close in a run of [Write] gives an object the bytes of the
    step that wrote it. *)
Lemma performed_close_component (s : step) (n : string) (v : list byte) :
  CallClose n (Some v) ∈ performed'' s →
  ∃ s', step_component'' s' = Some (n, v).
Proof.
  unfold performed, step_calls, step_deferred.
  destruct (os_Open env objectFilePath) as [src|] eqn:Hopen,
    (json_Marshal env meta) as [bMeta|] eqn:Hjson, s; simpl;
    rewrite ?elem_of_cons, ?elem_of_nil;
    intros Hc; repeat (destruct Hc as [Hc|Hc]); try done;
    apply closes_Some in Hc as [-> ->].
  all: first [ by exists StepBloom | by exists StepIndex
             | exists StepCopy; simpl; by rewrite Hopen
             | exists StepMeta; simpl; by rewrite Hjson ].
Qed.

Lemma performed_upload_closed (s : step) (name : string) :
  name ∈ uploads (performed'' s) → ∃ created, CallClose name created ∈ performed'' s.
Proof.
  unfold performed, step_calls, step_deferred, closes.
  destruct (os_Open env objectFilePath), (json_Marshal env meta), s; simpl;
    rewrite ?elem_of_cons, ?elem_of_nil;
    intros Hc; repeat (destruct Hc as [->|Hc]); try done;
    eexists; rewrite ?elem_of_cons; eauto 12.
Qed.

Lemma performed_open_closed (s : step) (src : File) :
  os_Open env objectFilePath = inl src →
  CallOpen objectFilePath ∈ performed'' s →
  CallFileClose (f_name src) ∈ performed'' s.
Proof.
  intros Hopen. unfold performed, step_calls, step_deferred, closes.
  rewrite Hopen.
  destruct (json_Marshal env meta), s; simpl;
    rewrite ?elem_of_cons, ?elem_of_nil; intros Hc;
    repeat (destruct Hc as [Hc|Hc]); try done; tauto.
Qed.

(** X22: [Write] stores nothing but what it was given: after the call,
    successful or not, every object of the bucket holds what it held
    before, or the bytes of the component that [Write] puts under its
    name (the bloom, the index, the bytes read from the source file, the
    marshalled record). *)
Theorem Write_stores_components (st : State) (name : string) :
  objects (Write'' st).2 !! name = objects st !! name
  ∨ ∃ s v, step_component'' s = Some (name, v)
      ∧ objects (Write'' st).2 !! name = Some v.
Proof.
  rewrite Write_lookup.
  destruct (written _ name) as [v|] eqn:Hw; [right|by left].
  apply written_Some_elem, performed_close_component in Hw as [s Hs].
  by exists s, v.
Qed.

(** X23: [Write] leaves nothing open: on every path, each writer that was
    handed bytes is closed before the call returns, and so is the source
    file once it was opened. *)
Theorem Write_closes_what_it_opens (st : State) :
  ∃ calls, trace (Write'' st).2 = trace st ++ calls
    ∧ (∀ name, name ∈ uploads calls → ∃ created, CallClose name created ∈ calls)
    ∧ (∀ src, os_Open env objectFilePath = inl src →
         CallOpen objectFilePath ∈ calls → CallFileClose (f_name src) ∈ calls).
Proof.
  rewrite Write_run. cbn [snd trace]. eexists. split; [done|]. split.
  - apply performed_upload_closed.
  - intros src. apply performed_open_closed.
Qed.

End WriteCalls.
